(** * Random walk in a periodic box: the notebook [02_separation.ipynb]

    The notebook defines three pieces: [PeriodicSpace] (a periodic
    rectangle with [normalize_positions]), [Particles] (positions, [move],
    [center_of_mass], [moment_of_inertia], [diagnostics], [positions]) and
    the driver [run_random_walk].  All numbers are numpy [float64] values,
    modelled here as IEEE 754 binary64 with the Standard Library's
    [SpecFloat] operations. *)

From Stdlib Require Import ZArith List Bool Lia Sorted SpecFloat.
Import ListNotations.

Local Open Scope Z_scope.

(** ** numpy float64 *)

Module F64.

Definition prec : Z := 53.
Definition emax : Z := 1024.

Definition float := spec_float.

Definition fadd : float -> float -> float := SFadd prec emax.
Definition fsub : float -> float -> float := SFsub prec emax.
Definition fmul : float -> float -> float := SFmul prec emax.
Definition fdiv : float -> float -> float := SFdiv prec emax.
Definition fopp : float -> float := SFopp.
Definition fabs : float -> float := SFabs.
Definition feqb : float -> float -> bool := SFeqb.
Definition fltb : float -> float -> bool := SFltb.
Definition fleb : float -> float -> bool := SFleb.

Definition valid (x : float) : bool := valid_binary prec emax x.

(** The float64 nearest to the integer [z] (exact for [|z| <= 2^53]). *)
Definition of_Z (z : Z) : float := binary_normalize prec emax z 0 false.

(** The float64 [m * 2^e], for a dyadic value that is representable. *)
Definition dyadic (m e : Z) : float := binary_normalize prec emax m e false.

(** The decimal literal [n/d]: both integers are exact, and the division
    rounds to nearest, so this is the float64 a Python literal denotes. *)
Definition dec (n d : Z) : float := fdiv (of_Z n) (of_Z d).

Definition pzero : float := S754_zero false.
Definition nzero : float := S754_zero true.
Definition nan : float := S754_nan.

Definition is_nan (x : float) : bool :=
  match x with S754_nan => true | _ => false end.

Definition is_zero (x : float) : bool :=
  match x with S754_zero _ => true | _ => false end.

(** Neither NaN nor an infinity. *)
Definition is_finite (x : float) : bool :=
  match x with
  | S754_zero _ | S754_finite _ _ _ => true
  | S754_infinity _ | S754_nan => false
  end.

(** C's [isless(x, 0)]. *)
Definition is_neg (x : float) : bool := fltb x pzero.

(** C's [fmod]: the remainder of the division truncated towards zero.  It
    has the sign of [a] and a magnitude below [|b|], and it is computed
    without rounding: both operands are brought to the common exponent
    [e], the integer remainder is taken, and the result is written back
    as a float64. *)
Definition fmod (a b : float) : float :=
  match a, b with
  | S754_nan, _ | _, S754_nan => S754_nan
  | S754_infinity _, _ => S754_nan
  | _, S754_zero _ => S754_nan
  | S754_zero _, _ => a
  | S754_finite _ _ _, S754_infinity _ => a
  | S754_finite sa ma ea, S754_finite _ mb eb =>
      let e := Z.min ea eb in
      let A := Z.pos (fst (shl_align ma ea e)) in
      let B := Z.pos (fst (shl_align mb eb e)) in
      binary_normalize prec emax (cond_Zopp sa (Z.rem A B)) e sa
  end.

(** numpy's [np.mod] on float64 ([npy_divmod] in [npy_math]): the C
    remainder, moved by one period when its sign differs from the
    divisor's, and a zero remainder takes the divisor's sign. *)
Definition np_mod (a b : float) : float :=
  let m := fmod a b in
  if is_zero b then m
  else if is_nan m then m
  else if is_zero m then (if is_neg b then nzero else pzero)
  else if negb (Bool.eqb (is_neg b) (is_neg m)) then fadd m b
  else m.

End F64.

Import F64.

(** ** Python exceptions and the state-and-error monad of the methods *)

Inductive exn : Type :=
  | AttributeError   (* attribute access on [None] *)
  | ValueError.      (* raised by numpy and pandas on malformed shapes *)

Inductive result (A : Type) : Type :=
  | Ok (a : A)
  | Raise (e : exn).
Arguments Ok {A} a.
Arguments Raise {A} e.

Definition is_ok {A} (r : result A) : bool :=
  match r with Ok _ => true | Raise _ => false end.

(** A method of an object with mutable state [S]: it returns a value or
    raises, and in both cases leaves the object in some state (a Python
    exception does not undo the assignments made before it). *)
Definition SE (S A : Type) : Type := S -> result A * S.

Definition ret {S A} (a : A) : SE S A := fun s => (Ok a, s).
Definition raise {S A} (e : exn) : SE S A := fun s => (Raise e, s).
Definition bind {S A B} (c : SE S A) (k : A -> SE S B) : SE S B :=
  fun s => match c s with
           | (Ok a, s') => k a s'
           | (Raise e, s') => (Raise e, s')
           end.
Definition get {S} : SE S S := fun s => (Ok s, s).
Definition modify {S} (f : S -> S) : SE S unit := fun s => (Ok tt, f s).

Declare Scope se_scope.
Delimit Scope se_scope with se.
Notation "x <- c ;; k" := (bind c (fun x => k))
  (at level 61, c at next level, right associativity) : se_scope.
Notation "c ;; k" := (bind c (fun _ => k))
  (at level 61, right associativity) : se_scope.

(** ** numpy arrays, reductions and the random generator *)

Module Np.

(** A one-dimensional float64 array. *)
Definition ndarray := list float.

(** [np.ones((n,))]: a negative dimension raises [ValueError]. *)
Definition ones (n : Z) : result ndarray :=
  if n <? 0 then Raise ValueError
  else Ok (repeat (of_Z 1) (Z.to_nat n)).

Fixpoint map2 (f : float -> float -> float) (a b : ndarray) : ndarray :=
  match a, b with
  | u :: a', v :: b' => f u v :: map2 f a' b'
  | _, _ => []
  end.

(** [res = 0.; for (i = 0; i < n; i++) res += a[i]]. *)
Definition sum_seq (init : float) (a : ndarray) : float :=
  fold_left fadd a init.

(** The unrolled loop of [pairwise_sum]: eight accumulators, each adding
    every eighth element. *)
Fixpoint lanes8 (blocks : nat) (r : list float) (a : ndarray)
  : list float * ndarray :=
  match blocks with
  | O => (r, a)
  | S k => lanes8 k (map2 fadd r (firstn 8 a)) (skipn 8 a)
  end.

Definition sum_block (a : ndarray) : float :=
  let '(r, rest) := lanes8 (length a / 8 - 1) (firstn 8 a) (skipn 8 a) in
  match r with
  | [r0; r1; r2; r3; r4; r5; r6; r7] =>
      sum_seq (fadd (fadd (fadd r0 r1) (fadd r2 r3))
                    (fadd (fadd r4 r5) (fadd r6 r7))) rest
  | _ => nan
  end.

(** numpy's [pairwise_sum] for float64: a plain loop below 8 elements, the
    unrolled loop up to 128, and a split in two halves (the first a
    multiple of 8) above.  [fuel] bounds the depth of the splitting; the
    length of the array is always enough. *)
Fixpoint pairwise_sum (fuel : nat) (a : ndarray) : float :=
  let n := length a in
  if (n <? 8)%nat then sum_seq pzero a
  else if (n <=? 128)%nat then sum_block a
  else match fuel with
       | O => sum_block a
       | S fuel' =>
           let n2 := (n / 2 - (n / 2) mod 8)%nat in
           fadd (pairwise_sum fuel' (firstn n2 a))
                (pairwise_sum fuel' (skipn n2 a))
       end.

(** [np.add.reduce]: the output starts at the identity [0.0] and the inner
    loop adds the pairwise sum of the whole array to it. *)
Definition sum (a : ndarray) : float :=
  fadd pzero (pairwise_sum (length a) a).

(** [ndarray.mean()]: [sum / count]; an empty array gives [0.0/0 = nan]
    with a warning, not an exception. *)
Definition mean (a : ndarray) : float :=
  fdiv (sum a) (of_Z (Z.of_nat (length a))).

(** [ndarray.var(ddof)]: the squared deviations from the mean, summed and
    divided by [max(count - ddof, 0)]. *)
Definition var (ddof : Z) (a : ndarray) : float :=
  let arrmean := fdiv (sum a) (of_Z (Z.of_nat (length a))) in
  let x := map (fun v => fsub v arrmean) a in
  let x := map (fun d => fmul d d) x in
  fdiv (sum x) (of_Z (Z.max (Z.of_nat (length a) - ddof) 0)).

(** [numpy.random.RandomState]: a generator is the sequence of standard
    normal values it is going to produce, and the number already handed
    out. *)
Record RandomState : Type := mkRandomState {
  gauss : nat -> float;
  drawn : nat
}.

(** [RandomState()] without a seed takes its state from the operating
    system's entropy, which is an input of the call. *)
Definition RandomState_init (entropy : nat -> float) : RandomState :=
  {| gauss := entropy; drawn := 0 |}.

(** [rng.normal(size=n)]: the next [n] values; the generator moves on. *)
Definition normal (rng : RandomState) (size : nat) : ndarray * RandomState :=
  (map (gauss rng) (seq (drawn rng) size),
   {| gauss := gauss rng; drawn := (drawn rng + size)%nat |}).

End Np.

(** ** The spatial domain *)

Record PeriodicSpace : Type := mkPeriodicSpace {
  length_x : float;
  length_y : float
}.

(** [PeriodicSpace.__init__(self, length_x=10, length_y=20)]. *)
Definition PeriodicSpace_init (length_x length_y : float) : PeriodicSpace :=
  {| length_x := length_x; length_y := length_y |}.

Definition PeriodicSpace_default : PeriodicSpace :=
  PeriodicSpace_init (of_Z 10) (of_Z 20).

Definition get_sizes (self : PeriodicSpace) : float * float :=
  (length_x self, length_y self).

(** [return np.mod(x, self.length_x), np.mod(y, self.length_y)]. *)
Definition normalize_positions (self : PeriodicSpace) (x y : Np.ndarray)
  : Np.ndarray * Np.ndarray :=
  (map (fun v => np_mod v (length_x self)) x,
   map (fun v => np_mod v (length_y self)) y).

(** ** A group of particles *)

(** [x] and [y] hold either [None] (the constructor's default) or an
    array. *)
Record Particles : Type := mkParticles {
  rng : Np.RandomState;
  space : PeriodicSpace;
  x : option Np.ndarray;
  y : option Np.ndarray;
  step_length : float;
  steps_done : Z
}.

(** [Particles.__init__]: five plain assignments, nothing is checked. *)
Definition Particles_init (rng : Np.RandomState) (space : PeriodicSpace)
    (x y : option Np.ndarray) (step_length : float) : result Particles :=
  Ok {| rng := rng; space := space; x := x; y := y;
        step_length := step_length; steps_done := 0 |}.

Definition set_rng (r : Np.RandomState) (p : Particles) : Particles :=
  {| rng := r; space := space p; x := x p; y := y p;
     step_length := step_length p; steps_done := steps_done p |}.
Definition set_x (v : option Np.ndarray) (p : Particles) : Particles :=
  {| rng := rng p; space := space p; x := v; y := y p;
     step_length := step_length p; steps_done := steps_done p |}.
Definition set_y (v : option Np.ndarray) (p : Particles) : Particles :=
  {| rng := rng p; space := space p; x := x p; y := v;
     step_length := step_length p; steps_done := steps_done p |}.
Definition set_steps_done (n : Z) (p : Particles) : Particles :=
  {| rng := rng p; space := space p; x := x p; y := y p;
     step_length := step_length p; steps_done := n |}.

Local Open Scope se_scope.

(** An attribute or method of [self.x] ([.shape], [.mean()], [.var()]):
    [None] has none of them. *)
Definition array_of (field : Particles -> option Np.ndarray)
  : SE Particles Np.ndarray :=
  self <- get ;;
  match field self with
  | Some a => ret a
  | None => raise AttributeError
  end.

(** [self.rng.normal(size=n)]. *)
Definition draw_normal (n : nat) : SE Particles Np.ndarray :=
  self <- get ;;
  let '(d, r) := Np.normal (rng self) n in
  modify (set_rng r) ;;
  ret d.

(** [self.step_length * draws], then the in-place [+=]. *)
Definition displaced (a : Np.ndarray) (s : float) (d : Np.ndarray)
  : Np.ndarray :=
  Np.map2 fadd a (map (fun g => fmul s g) d).

Definition move : SE Particles unit :=
  (* self.x += self.step_length * self.rng.normal(size=self.x.shape) *)
  xs <- array_of x ;;
  self <- get ;;
  dx <- draw_normal (length xs) ;;
  modify (set_x (Some (displaced xs (step_length self) dx))) ;;
  (* self.y += self.step_length * self.rng.normal(size=self.y.shape) *)
  ys <- array_of y ;;
  dy <- draw_normal (length ys) ;;
  modify (set_y (Some (displaced ys (step_length self) dy))) ;;
  (* self.x, self.y = self.space.normalize_positions(self.x, self.y) *)
  xs <- array_of x ;;
  ys <- array_of y ;;
  self <- get ;;
  let '(nx, ny) := normalize_positions (space self) xs ys in
  modify (set_x (Some nx)) ;;
  modify (set_y (Some ny)) ;;
  (* self.steps_done += 1 *)
  self <- get ;;
  modify (set_steps_done (steps_done self + 1)).

Definition center_of_mass : SE Particles (float * float) :=
  xs <- array_of x ;;
  ys <- array_of y ;;
  ret (Np.mean xs, Np.mean ys).

(** [return self.x.var() + self.y.var()], with numpy's default
    [ddof=0]. *)
Definition moment_of_inertia : SE Particles float :=
  xs <- array_of x ;;
  ys <- array_of y ;;
  ret (fadd (Np.var 0 xs) (Np.var 0 ys)).

(** One row of the diagnostics frame; [index] is the row label. *)
Record DiagRow : Type := mkDiagRow {
  index : Z;
  col_center_of_mass_x : float;
  col_center_of_mass_y : float;
  col_moment_of_inertia : float
}.

Definition DataFrame := list DiagRow.

Definition diagnostics : SE Particles DataFrame :=
  com <- center_of_mass ;;
  mi <- moment_of_inertia ;;
  self <- get ;;
  ret [ {| index := steps_done self;
           col_center_of_mass_x := fst com;
           col_center_of_mass_y := snd com;
           col_moment_of_inertia := mi |} ].

(** The frame of positions: a column built from [None] holds [None] in
    every row. *)
Definition PositionFrame := list (option float * option float).

(** [pd.DataFrame({"x": self.x, "y": self.y})]: pandas raises
    [ValueError] when both values are scalars (here [None]) and when the
    two arrays differ in length; a single [None] is broadcast along the
    other column. *)
Definition positions : SE Particles PositionFrame :=
  self <- get ;;
  match x self, y self with
  | None, None => raise ValueError
  | Some xs, None => ret (map (fun v => (Some v, None)) xs)
  | None, Some ys => ret (map (fun v => (None, Some v)) ys)
  | Some xs, Some ys =>
      if (length xs =? length ys)%nat
      then ret (map (fun p => (Some (fst p), Some (snd p))) (combine xs ys))
      else raise ValueError
  end.

(** ** Arrays as objects: [move] in place

    [self.x += ...] and [self.y += ...] change an ndarray in place, so
    what [move] does depends on whether [self.x] and [self.y] are one
    array object or two.  [run_random_walk] passes two arrays, and
    [normalize_positions] returns two new ones on every call; the
    definitions above describe this case, with the arrays as values.
    The constructor stores whatever it is given, though, and
    [Particles(x=a, y=a)] holds one object under both names.  The module
    [InPlace] describes the constructor and [move] on array objects kept
    in a store; on two separate objects it agrees with [move] above,
    which is proved further down.  (Each object owns its elements: views
    that overlap in part are not described.) *)

Module InPlace.

(** The address of an ndarray object. *)
Definition ref : Type := nat.

(** The ndarray objects: [cell r] is what the object at [r] holds, and
    [next] is the first address not in use. *)
Record Store : Type := mkStore {
  cell : ref -> Np.ndarray;
  next : ref
}.

(** [x] and [y] hold [None] or an array object. *)
Record Particles : Type := mkParticles {
  rng : Np.RandomState;
  space : PeriodicSpace;
  x : option ref;
  y : option ref;
  step_length : float;
  steps_done : Z
}.

(** A [Particles] object together with the array objects. *)
Record State : Type := mkState {
  self : Particles;
  store : Store
}.

(** [Particles.__init__]: five plain assignments; the arrays are stored,
    not copied. *)
Definition Particles_init (rng : Np.RandomState) (space : PeriodicSpace)
    (x y : option ref) (step_length : float) : result Particles :=
  Ok {| rng := rng; space := space; x := x; y := y;
        step_length := step_length; steps_done := 0 |}.

Definition set_rng (r : Np.RandomState) (s : State) : State :=
  {| self := {| rng := r; space := space (self s); x := x (self s);
                y := y (self s); step_length := step_length (self s);
                steps_done := steps_done (self s) |};
     store := store s |}.
Definition set_x (v : option ref) (s : State) : State :=
  {| self := {| rng := rng (self s); space := space (self s); x := v;
                y := y (self s); step_length := step_length (self s);
                steps_done := steps_done (self s) |};
     store := store s |}.
Definition set_y (v : option ref) (s : State) : State :=
  {| self := {| rng := rng (self s); space := space (self s);
                x := x (self s); y := v;
                step_length := step_length (self s);
                steps_done := steps_done (self s) |};
     store := store s |}.
Definition set_steps_done (n : Z) (s : State) : State :=
  {| self := {| rng := rng (self s); space := space (self s);
                x := x (self s); y := y (self s);
                step_length := step_length (self s); steps_done := n |};
     store := store s |}.

(** The object at [r] gets the content [a]; every name that holds this
    object sees it. *)
Definition set_cell (r : ref) (a : Np.ndarray) (s : State) : State :=
  {| self := self s;
     store := {| cell := fun r' => if (r' =? r)%nat then a
                                   else cell (store s) r';
                 next := next (store s) |} |}.

(** A new object with the content [a] is added at the first free
    address. *)
Definition add_cell (a : Np.ndarray) (s : State) : State :=
  {| self := self s;
     store := {| cell := fun r' => if (r' =? next (store s))%nat then a
                                   else cell (store s) r';
                 next := S (next (store s)) |} |}.

(** The array object an attribute holds; using [None] as one raises. *)
Definition array_at (field : Particles -> option ref) : SE State ref :=
  s <- get ;;
  match field (self s) with
  | Some r => ret r
  | None => raise AttributeError
  end.

Definition read (r : ref) : SE State Np.ndarray :=
  s <- get ;;
  ret (cell (store s) r).

(** [self.rng.normal(size=n)]. *)
Definition draw_normal (n : nat) : SE State Np.ndarray :=
  s <- get ;;
  let '(d, r) := Np.normal (rng (self s)) n in
  modify (set_rng r) ;;
  ret d.

(** The result of an operation that returns a new array. *)
Definition new (a : Np.ndarray) : SE State ref :=
  s <- get ;;
  modify (add_cell a) ;;
  ret (next (store s)).

Definition move : SE State unit :=
  (* self.x += self.step_length * self.rng.normal(size=self.x.shape) *)
  rx <- array_at x ;;
  xs <- read rx ;;
  s <- get ;;
  dx <- draw_normal (length xs) ;;
  modify (set_cell rx (displaced xs (step_length (self s)) dx)) ;;
  (* self.y += self.step_length * self.rng.normal(size=self.y.shape) *)
  ry <- array_at y ;;
  ys <- read ry ;;
  dy <- draw_normal (length ys) ;;
  modify (set_cell ry (displaced ys (step_length (self s)) dy)) ;;
  (* self.x, self.y = self.space.normalize_positions(self.x, self.y) *)
  rx <- array_at x ;;
  ry <- array_at y ;;
  xs <- read rx ;;
  ys <- read ry ;;
  s <- get ;;
  let '(nx, ny) := normalize_positions (space (self s)) xs ys in
  rx' <- new nx ;;
  ry' <- new ny ;;
  modify (set_x (Some rx')) ;;
  modify (set_y (Some ry')) ;;
  (* self.steps_done += 1 *)
  s <- get ;;
  modify (set_steps_done (steps_done (self s) + 1)).

End InPlace.


(** ** Driving the experiment *)

(** [range(a, b)]. *)
Definition py_range (a b : Z) : list Z :=
  map (fun i => a + Z.of_nat i) (seq 0 (Z.to_nat (b - a))).

Definition set_index (i : Z) (r : DiagRow) : DiagRow :=
  {| index := i;
     col_center_of_mass_x := col_center_of_mass_x r;
     col_center_of_mass_y := col_center_of_mass_y r;
     col_moment_of_inertia := col_moment_of_inertia r |}.

(** [df.append(other, ignore_index=...)]: the rows of both frames in
    order; with [ignore_index] they are relabelled [0, 1, 2, ...]. *)
Definition df_append (df other : DataFrame) (ignore_index : bool)
  : DataFrame :=
  let rows := df ++ other in
  if ignore_index
  then map (fun ir => set_index (Z.of_nat (fst ir)) (snd ir))
           (combine (seq 0 (length rows)) rows)
  else rows.

(** The body of the [for] loop, run once for every element of the
    range. *)
Fixpoint run_steps (steps : list Z) (diags : DataFrame)
  : SE Particles DataFrame :=
  match steps with
  | [] => ret diags
  | _ :: rest =>
      move ;;
      d <- diagnostics ;;
      run_steps rest (df_append diags d true)
  end.

(** The objects a call has constructed so far. *)
Inductive constructed : Type :=
  | TheSpace (s : PeriodicSpace)
  | TheRng (r : Np.RandomState)
  | TheParticles (p : Particles).

Record Outcome : Type := mkOutcome {
  diags : DataFrame;
  initial_positions : PositionFrame;
  final_positions : PositionFrame
}.

(** What runs after the particles exist. *)
Definition experiment (number_steps : Z) : SE Particles Outcome :=
  (* track initial positions *)
  initial <- positions ;;
  (* initialize dataframe with diagnostics *)
  d0 <- diagnostics ;;
  (* run `number_steps` updates and accumulate diagnostics *)
  ds <- run_steps (py_range 1 number_steps) d0 ;;
  (* track final positions *)
  final <- positions ;;
  ret {| diags := ds; initial_positions := initial;
         final_positions := final |}.

(** [run_random_walk].  [entropy] is what the unseeded [RandomState()]
    reads from the operating system; the result comes with the list of
    the objects constructed, oldest first. *)
Definition run_random_walk (entropy : nat -> float)
    (length_x length_y : float) (number_particles number_steps : Z)
    (step_length : float) : list constructed * result Outcome :=
  (* initialize spatial domain *)
  let space := PeriodicSpace_init length_x length_y in
  (* initialize random number generator *)
  let rng := Np.RandomState_init entropy in
  let made := [TheSpace space; TheRng rng] in
  (* x=np.ones((number_particles, )) * length_x / 2.0 *)
  match Np.ones number_particles with
  | Raise e => (made, Raise e)
  | Ok ones =>
      let half l := map (fun o => fdiv (fmul o l) (of_Z 2)) ones in
      match Particles_init rng space (Some (half length_x))
                           (Some (half length_y)) step_length with
      | Raise e => (made, Raise e)
      | Ok particles =>
          (made ++ [TheParticles particles],
           fst (experiment number_steps particles))
      end
  end.

Local Close Scope se_scope.

(** * Vocabulary of the statements *)

(** The exponent of the last place of a binary64 number with [z] digits
    before the binary point. *)
Definition fexp64 (z : Z) : Z := fexp prec emax z.

(** [0 <= v < l], as numpy evaluates the two comparisons. *)
Definition in_range (v l : float) : bool := fleb pzero v && fltb v l.

(** Positive and neither infinite nor NaN. *)
Definition is_pos_finite (x : float) : bool :=
  match x with S754_finite false _ _ => true | _ => false end.

(** Zero or positive, and neither infinite nor NaN. *)
Definition is_nonneg_finite (x : float) : bool :=
  match x with
  | S754_zero _ | S754_finite false _ _ => true
  | _ => false
  end.

(** The two zeros are the same number; [pos_zero] picks [+0.0]. *)
Definition pos_zero (x : float) : float := if is_zero x then pzero else x.

(** The count [1] as numpy converts it for the division in [mean]. *)
Definition one : float := of_Z 1.

(** The arrays before wrapping, and the generator after both draws. *)
Definition prewrap_x (p : Particles) (xs : Np.ndarray) : Np.ndarray :=
  displaced xs (step_length p) (fst (Np.normal (rng p) (length xs))).

Definition prewrap_y (p : Particles) (xs ys : Np.ndarray) : Np.ndarray :=
  displaced ys (step_length p)
    (fst (Np.normal (snd (Np.normal (rng p) (length xs))) (length ys))).

Definition rng_after (p : Particles) (xs ys : Np.ndarray) : Np.RandomState :=
  snd (Np.normal (snd (Np.normal (rng p) (length xs))) (length ys)).

(** A float64 value: the canonical representation of a binary64 number
    (every value the operations return is one, see [fadd_valid] and its
    neighbours). *)
Definition float64 (v : float) : Prop := valid v = true.

(** The coordinate [-2^-60], about [-8.7e-19]. *)
Definition tiny_negative : float := dyadic (-1) (-60).



Definition constant_rng (g : float) : Np.RandomState :=
  Np.RandomState_init (fun _ => g).

(** Arrays of different lengths; the constructor accepts them. *)
Definition uneven_particles : Particles :=
  {| rng := constant_rng pzero; space := PeriodicSpace_default;
     x := Some [of_Z 5]; y := Some [of_Z 10; of_Z 10];
     step_length := dec 1 2; steps_done := 0 |}.


(** A finite step length whose product with the draw [2.0] overflows. *)
Definition huge_step_particles : Particles :=
  {| rng := constant_rng (of_Z 2); space := PeriodicSpace_default;
     x := Some [of_Z 5]; y := Some [of_Z 10];
     step_length := dyadic 1 1023; steps_done := 0 |}.

(** Row [i] of a frame carries the label [i]. *)
Definition labelled (df : DataFrame) : Prop :=
  map index df = map Z.of_nat (seq 0 (length df)).

Definition sample_entropy (i : nat) : float := dec (Z.of_nat (i mod 7) - 3) 4.

(** A second source of entropy. *)
Definition other_entropy (i : nat) : float := dec (Z.of_nat (i mod 5) - 2) 3.

Definition first_final_position (r : result Outcome)
  : option (option float * option float) :=
  match r with
  | Ok o => hd_error (final_positions o)
  | Raise _ => None
  end.

(** [k] successive calls of [move]. *)
Fixpoint repeat_move (k : nat) : SE Particles unit :=
  match k with
  | O => ret tt
  | S k' => bind move (fun _ => repeat_move k')
  end.

Definition inside (l : float) (v : float) : Prop :=
  float64 v /\ in_range v l = true.

Definition resting_particles : Particles :=
  {| rng := Np.RandomState_init sample_entropy;
     space := PeriodicSpace_default;
     x := Some [of_Z 5; nzero; dec 99 10];
     y := Some [of_Z 10; dec 1 2; pzero];
     step_length := pzero; steps_done := 0 |}.

Definition lone_particle : Particles :=
  {| rng := constant_rng (of_Z 1); space := PeriodicSpace_default;
     x := Some [dec 99 10]; y := Some [dec 1 3];
     step_length := dec 1 2; steps_done := 7 |}.

(** Two generators that have handed out equally many values and will
    produce the same ones. *)
Definition same_draws (r1 r2 : Np.RandomState) : Prop :=
  Np.drawn r1 = Np.drawn r2 /\ forall i, Np.gauss r1 i = Np.gauss r2 i.

(** Two groups of particles holding the same arrays, that differ at most
    in how their generators are represented. *)
Definition same_particles (p1 p2 : Particles) : Prop :=
  same_draws (rng p1) (rng p2) /\ space p1 = space p2 /\
  x p1 = x p2 /\ y p1 = y p2 /\
  step_length p1 = step_length p2 /\ steps_done p1 = steps_done p2 /\
  exists xs ys, x p1 = Some xs /\ y p1 = Some ys.

(** A method gives the same answer on both and keeps them alike. *)
Definition agrees {A : Type} (c : SE Particles A) (p1 p2 : Particles)
  : Prop :=
  fst (c p1) = fst (c p2) /\ same_particles (snd (c p1)) (snd (c p2)).

(** ** Further vocabulary *)

(** A coordinate of the box of extent [l]: a float64 in [[0, l]], or NaN
    (what an overflowing step leaves behind). *)
Definition boxed_or_nan (l v : float) : bool :=
  valid v && (is_nan v || (is_nonneg_finite v && fleb v l)).

(** The sign bit is clear, or the value is NaN: never a negative number
    and never [-0.0]. *)
Definition sign_clear (v : float) : bool :=
  match v with
  | S754_zero false | S754_infinity false | S754_finite false _ _
  | S754_nan => true
  | _ => false
  end.

(** Particles whose [y] array is missing. *)
Definition half_built_particles : Particles :=
  {| rng := constant_rng (of_Z 1); space := PeriodicSpace_default;
     x := Some [dec 99 10]; y := None;
     step_length := dec 1 2; steps_done := 3 |}.

(** An ensemble of no particles. *)
Definition empty_particles : Particles :=
  {| rng := constant_rng (of_Z 1); space := PeriodicSpace_default;
     x := Some []; y := Some [];
     step_length := dec 1 2; steps_done := 0 |}.

(** The state after [k] calls of [move]. *)
Definition after_moves (k : nat) (p : Particles) : Particles :=
  snd (repeat_move k p).

(** The particles [run_random_walk] constructs: [n] of them, all at the
    centre of the domain. *)
Definition centred_particles (entropy : nat -> float)
    (length_x length_y : float) (n : nat) (step_length : float)
  : Particles :=
  let half l := map (fun o => fdiv (fmul o l) (of_Z 2))
                    (repeat (of_Z 1) n) in
  {| rng := Np.RandomState_init entropy;
     space := PeriodicSpace_init length_x length_y;
     x := Some (half length_x); y := Some (half length_y);
     step_length := step_length; steps_done := 0 |}.

(** Both coordinates of a row of positions are present and in the box,
    or NaN. *)
Definition row_boxed (length_x length_y : float)
    (q : option float * option float) : Prop :=
  exists a b, q = (Some a, Some b) /\
              boxed_or_nan length_x a = true /\
              boxed_or_nan length_y b = true.

(** Two generators at the same position whose next values agree up to
    the [n]-th of the sequence. *)
Definition same_draws_below (n : nat) (r1 r2 : Np.RandomState) : Prop :=
  Np.drawn r1 = Np.drawn r2 /\
  forall i, (i < n)%nat -> Np.gauss r1 i = Np.gauss r2 i.

(** Two groups of particles that differ at most in the draws from the
    [n]-th on. *)
Definition alike_below (n : nat) (p1 p2 : Particles) : Prop :=
  same_draws_below n (rng p1) (rng p2) /\ space p1 = space p2 /\
  x p1 = x p2 /\ y p1 = y p2 /\
  step_length p1 = step_length p2 /\ steps_done p1 = steps_done p2.

(** [sample_entropy] for the first four values, [other_entropy] from
    then on. *)
Definition spliced_entropy (i : nat) : float :=
  if (i <? 4)%nat then sample_entropy i else other_entropy i.

(** The value of a finite float64 counted in units of [2^-1074], the
    spacing of the smallest float64 numbers: every finite float64 is a
    whole number of them. *)
Definition ulps (v : float) : Z :=
  match v with
  | S754_finite s m e => cond_Zopp s (Z.pos m * 2 ^ (e + 1074))
  | _ => 0
  end.

(** ** Vocabulary of the wrapped coordinates *)

(** The float64 nearest to [z] units of [2^-1074], ties to even: the
    rounding of IEEE 754 arithmetic, as [SpecFloat] defines it.  Every
    finite float64 is a whole number of these units ([ulps]) and is
    its own nearest float64. *)
Definition nearest (z : Z) : float := dyadic z (-1074).



(** What the object at [rx] holds after the first addition of [move]:
    [x + step_length * dx]. *)
Definition added_once (s : InPlace.State) (rx : InPlace.ref) : Np.ndarray :=
  let p := InPlace.self s in
  let a := InPlace.cell (InPlace.store s) rx in
  displaced a (InPlace.step_length p)
            (fst (Np.normal (InPlace.rng p) (length a))).

(** What the object at [ry] holds after the second addition.  When [ry]
    is the object at [rx], the second addition acts on the outcome of
    the first. *)
Definition added_y (s : InPlace.State) (rx ry : InPlace.ref) : Np.ndarray :=
  let p := InPlace.self s in
  let a := InPlace.cell (InPlace.store s) rx in
  let b := if (ry =? rx)%nat then added_once s rx
           else InPlace.cell (InPlace.store s) ry in
  displaced b (InPlace.step_length p)
            (fst (Np.normal (snd (Np.normal (InPlace.rng p) (length a)))
                            (length b))).

(** What the object at [rx] holds after both additions. *)
Definition added_x (s : InPlace.State) (rx ry : InPlace.ref) : Np.ndarray :=
  if (rx =? ry)%nat then added_y s rx ry else added_once s rx.


(** [Particles(x=a, y=a)] for one array [a = [1.0]], in the default
    domain, with step length [1.0] and a generator whose first draws
    are [0.0] and [-(1 + 2^-52)]. *)
Definition shared_array_state : InPlace.State :=
  {| InPlace.self :=
       {| InPlace.rng :=
            Np.RandomState_init
              (fun i => match i with
                        | O => pzero
                        | _ => dyadic (-4503599627370497) (-52)
                        end);
          InPlace.space := PeriodicSpace_default;
          InPlace.x := Some 0%nat; InPlace.y := Some 0%nat;
          InPlace.step_length := of_Z 1; InPlace.steps_done := 0 |};
     InPlace.store := {| InPlace.cell := fun _ => [of_Z 1];
                         InPlace.next := 1%nat |} |}.

(** ** Vocabulary of the exact variance *)










(** The number of values a run takes from its generator: one for each
    coordinate of each particle in each of the [number_steps - 1] calls
    of [move]; none for a negative count of particles or of steps. *)
Definition draws_read (number_particles number_steps : Z) : nat :=
  (2 * Z.to_nat number_particles * Z.to_nat (number_steps - 1))%nat.

(** * Facts about binary64 *)

(** ** Digits and shifts *)

Section Digits.

Lemma digits2_pos_size (m : positive) : digits2_pos m = Pos.size m.
Proof. induction m as [m IH | m IH | ]; simpl; now rewrite ?IH. Qed.

Lemma digits2_pos_bounds (m : positive) :
  2 ^ (Z.pos (digits2_pos m) - 1) <= Z.pos m < 2 ^ Z.pos (digits2_pos m).
Proof.
  rewrite digits2_pos_size. split.
  - pose proof (Pos.size_le m) as H.
    apply Pos2Z.pos_le_pos in H. rewrite Pos2Z.inj_pow in H.
    replace (Z.pos (Pos.size m)) with (Z.succ (Z.pos (Pos.size m) - 1)) in H
      by lia.
    rewrite Z.pow_succ_r in H by lia.
    change (Z.pos m~0) with (2 * Z.pos m) in H. lia.
  - pose proof (Pos.size_gt m) as H.
    apply Pos2Z.pos_lt_pos in H. now rewrite Pos2Z.inj_pow in H.
Qed.

(** The number of digits is the only [d] with [2^(d-1) <= m < 2^d]. *)
Lemma digits2_pos_unique (m : positive) (d : Z) :
  2 ^ (d - 1) <= Z.pos m < 2 ^ d -> Z.pos (digits2_pos m) = d.
Proof.
  intros [Hlo Hhi]. pose proof (digits2_pos_bounds m) as [Glo Ghi].
  assert (0 < d).
  { destruct (Z.ltb_spec 0 d) as [|Hd]; [assumption|].
    assert (2 ^ d <= 2 ^ 0) by (apply Z.pow_le_mono_r; lia).
    simpl in *. lia. }
  assert (d - 1 < Z.pos (digits2_pos m)).
  { apply (Z.pow_lt_mono_r_iff 2); lia. }
  assert (Z.pos (digits2_pos m) - 1 < d).
  { apply (Z.pow_lt_mono_r_iff 2); lia. }
  lia.
Qed.

Lemma digits2_pos_le (m n : positive) :
  Z.pos m <= Z.pos n -> Z.pos (digits2_pos m) <= Z.pos (digits2_pos n).
Proof.
  intros H. pose proof (digits2_pos_bounds m) as [Glo _].
  pose proof (digits2_pos_bounds n) as [_ Ghi].
  assert (Z.pos (digits2_pos m) - 1 < Z.pos (digits2_pos n)).
  { apply (Z.pow_lt_mono_r_iff 2); lia. }
  lia.
Qed.

(** [k] doublings. *)
Lemma iter_xO_value (m k : positive) :
  Z.pos (Pos.iter xO m k) = Z.pos m * 2 ^ Z.pos k.
Proof.
  change (Pos.iter xO m k) with (shift_pos k m).
  rewrite shift_pos_correct, Z.pow_pos_fold. lia.
Qed.

Lemma digits2_pos_shift (m : positive) (k : Z) (m' : positive) :
  0 <= k -> Z.pos m' = Z.pos m * 2 ^ k ->
  Z.pos (digits2_pos m') = Z.pos (digits2_pos m) + k.
Proof.
  intros Hk E. apply digits2_pos_unique. rewrite E.
  pose proof (digits2_pos_bounds m) as [Glo Ghi].
  replace (Z.pos (digits2_pos m) + k - 1)
    with (Z.pos (digits2_pos m) - 1 + k) by lia.
  rewrite !Z.pow_add_r by lia.
  assert (0 < 2 ^ k) by (apply Z.pow_pos_nonneg; lia).
  split; nia.
Qed.

(** [shl_align] lowers the exponent to [e'] without changing the value. *)
Lemma shl_align_value (m : positive) (e e' : Z) :
  e' <= e ->
  Z.pos (fst (shl_align m e e')) = Z.pos m * 2 ^ (e - e') /\
  snd (shl_align m e e') = e'.
Proof.
  intros H. unfold shl_align.
  destruct (e' - e) as [|p|p] eqn:E; cbn [fst snd].
  - replace (e - e') with 0 by lia. rewrite Z.pow_0_r. split; lia.
  - lia.
  - rewrite iter_xO_value.
    replace (e - e') with (Z.pos p) by (pose proof (Pos2Z.opp_pos p); lia).
    split; reflexivity.
Qed.

Lemma shl_align_same (m : positive) (e e' : Z) :
  e <= e' -> shl_align m e e' = (m, e).
Proof.
  intros H. unfold shl_align. destruct (e' - e) eqn:E; try reflexivity. lia.
Qed.

End Digits.

(** ** Canonical representations and exact rounding *)

Section Canonical.

Lemma fexp64_eq (z : Z) : fexp64 z = Z.max (z - 53) (-1074).
Proof. reflexivity. Qed.

Lemma canonical_iff (m : positive) (e : Z) :
  canonical_mantissa prec emax m e = true <->
  fexp64 (Z.pos (digits2_pos m) + e) = e.
Proof. unfold canonical_mantissa. apply Z.eqb_eq. Qed.

Lemma bounded_iff (m : positive) (e : Z) :
  bounded prec emax m e = true <->
  fexp64 (Z.pos (digits2_pos m) + e) = e /\ e <= 971.
Proof.
  unfold bounded. rewrite andb_true_iff, canonical_iff, Z.leb_le.
  reflexivity.
Qed.

(** A canonical mantissa has at most 53 digits, exactly 53 above the
    smallest exponent. *)
Lemma canonical_digits (m : positive) (e : Z) :
  fexp64 (Z.pos (digits2_pos m) + e) = e ->
  -1074 <= e /\ Z.pos (digits2_pos m) <= 53 /\
  (-1074 < e -> Z.pos (digits2_pos m) = 53).
Proof. rewrite fexp64_eq. lia. Qed.

(** Rounding a mantissa that is already canonical changes nothing. *)
Lemma binary_round_aux_canonical (s : bool) (m : positive) (e : Z) :
  fexp64 (Z.pos (digits2_pos m) + e) = e ->
  binary_round_aux prec emax s (Z.pos m) e loc_Exact =
  if e <=? 971 then S754_finite s m e else S754_infinity s.
Proof.
  intros H. unfold binary_round_aux, shr_fexp. cbn [Zdigits2].
  unfold fexp64 in H. rewrite H, Z.sub_diag.
  cbn [shr shr_record_of_loc shr_m loc_of_shr_record round_nearest_even
       Zdigits2].
  rewrite H, Z.sub_diag. reflexivity.
Qed.

(** [binary_round] on a value that needs no right shift: the mantissa is
    shifted left to the canonical exponent and nothing is lost. *)
Lemma binary_round_exact (s : bool) (m : positive) (e : Z) :
  let fe := fexp64 (Z.pos (digits2_pos m) + e) in
  fe <= e ->
  exists m' : positive,
    Z.pos m' = Z.pos m * 2 ^ (e - fe) /\
    fexp64 (Z.pos (digits2_pos m') + fe) = fe /\
    binary_round prec emax s m e =
    if fe <=? 971 then S754_finite s m' fe else S754_infinity s.
Proof.
  intros fe Hfe. unfold binary_round. fold (fexp64 (Z.pos (digits2_pos m) + e)).
  fold fe.
  destruct (shl_align_value m e fe Hfe) as [Hv He].
  destruct (shl_align m e fe) as [mz ez] eqn:E. cbn [fst snd] in Hv, He.
  subst ez.
  assert (Hc : fexp64 (Z.pos (digits2_pos mz) + fe) = fe).
  { rewrite (digits2_pos_shift m (e - fe) mz) by (assumption || lia).
    replace (Z.pos (digits2_pos m) + (e - fe) + fe)
      with (Z.pos (digits2_pos m) + e) by lia.
    reflexivity. }
  exists mz. split; [assumption|]. split; [assumption|].
  now apply binary_round_aux_canonical.
Qed.

(** Comparing two positive canonical floats is comparing their values,
    written here over the common exponent. *)
Lemma SFcompare_canonical (m1 : positive) (e1 : Z) (m2 : positive) (e2 : Z) :
  fexp64 (Z.pos (digits2_pos m1) + e1) = e1 ->
  fexp64 (Z.pos (digits2_pos m2) + e2) = e2 ->
  SFcompare (S754_finite false m1 e1) (S754_finite false m2 e2) =
  Some (Z.pos m1 * 2 ^ (e1 - Z.min e1 e2) ?= Z.pos m2 * 2 ^ (e2 - Z.min e1 e2)).
Proof.
  intros C1 C2. apply canonical_digits in C1, C2.
  destruct C1 as (L1 & D1 & N1), C2 as (L2 & D2 & N2).
  pose proof (digits2_pos_bounds m1) as [Lo1 Hi1].
  pose proof (digits2_pos_bounds m2) as [Lo2 Hi2].
  cbn [SFcompare]. f_equal.
  destruct (Z.compare_spec e1 e2) as [E|E|E].
  - subst e2. rewrite Z.min_id, Z.sub_diag, Z.pow_0_r, !Z.mul_1_r.
    reflexivity.
  - rewrite Z.min_l by lia. rewrite Z.sub_diag, Z.pow_0_r, Z.mul_1_r.
    symmetry. apply Z.compare_lt_iff.
    rewrite N2 in Lo2 by lia.
    assert (2 ^ 1 <= 2 ^ (e2 - e1)) by (apply Z.pow_le_mono_r; lia).
    assert (Z.pos m1 < 2 ^ 53).
    { eapply Z.lt_le_trans; [exact Hi1|]. apply Z.pow_le_mono_r; lia. }
    change (2 ^ (53 - 1)) with 4503599627370496 in Lo2.
    change (2 ^ 53) with 9007199254740992 in *. change (2 ^ 1) with 2 in *.
    nia.
  - rewrite Z.min_r by lia. rewrite Z.sub_diag, Z.pow_0_r, Z.mul_1_r.
    symmetry. apply Z.compare_gt_iff.
    rewrite N1 in Lo1 by lia.
    assert (2 ^ 1 <= 2 ^ (e1 - e2)) by (apply Z.pow_le_mono_r; lia).
    assert (Z.pos m2 < 2 ^ 53).
    { eapply Z.lt_le_trans; [exact Hi2|]. apply Z.pow_le_mono_r; lia. }
    change (2 ^ (53 - 1)) with 4503599627370496 in Lo1.
    change (2 ^ 53) with 9007199254740992 in *. change (2 ^ 1) with 2 in *.
    nia.
Qed.

End Canonical.

(** ** The remainder operations on non-negative arguments *)

Section Remainder.

Lemma valid_finite (s : bool) (m : positive) (e : Z) :
  valid (S754_finite s m e) = true <->
  fexp64 (Z.pos (digits2_pos m) + e) = e /\ e <= 971.
Proof. unfold valid, valid_binary. apply bounded_iff. Qed.

(** The C remainder of two positive floats is exact: it is [+0.0] or a
    positive float below the divisor. *)
Lemma fmod_pos (ma : positive) (ea : Z) (mb : positive) (eb : Z) :
  valid (S754_finite false ma ea) = true ->
  valid (S754_finite false mb eb) = true ->
  let r := fmod (S754_finite false ma ea) (S754_finite false mb eb) in
  valid r = true /\ is_nonneg_finite r = true /\
  (is_zero r = true -> r = pzero) /\
  fltb r (S754_finite false mb eb) = true.
Proof.
  intros Va Vb. apply valid_finite in Va, Vb.
  destruct Va as [Ca Ba], Vb as [Cb Bb].
  pose proof (canonical_digits _ _ Ca) as (La & Da & _).
  pose proof (canonical_digits _ _ Cb) as (Lb & Db & _).
  pose proof (digits2_pos_bounds ma) as [_ Ha].
  pose proof (digits2_pos_bounds mb) as [_ Hb].
  assert (Ha53 : Z.pos ma < 2 ^ 53).
  { eapply Z.lt_le_trans; [exact Ha|]. apply Z.pow_le_mono_r; lia. }
  assert (Hb53 : Z.pos mb < 2 ^ 53).
  { eapply Z.lt_le_trans; [exact Hb|]. apply Z.pow_le_mono_r; lia. }
  cbn [fmod]. set (e := Z.min ea eb).
  destruct (shl_align_value ma ea e ltac:(subst e; lia)) as [HA _].
  destruct (shl_align_value mb eb e ltac:(subst e; lia)) as [HB _].
  set (A := Z.pos (fst (shl_align ma ea e))) in *.
  set (B := Z.pos (fst (shl_align mb eb e))) in *.
  assert (HApos : 0 < A) by (subst A; lia).
  assert (HBpos : 0 < B) by (subst B; lia).
  rewrite Z.rem_mod_nonneg by lia.
  pose proof (Z.mod_pos_bound A B HBpos) as [R0 RB].
  pose proof (Z.mod_le A B ltac:(lia) HBpos) as RA.
  cbn [cond_Zopp].
  destruct (A mod B) as [|r|r] eqn:ER; [| |lia].
  - cbn. repeat split; reflexivity || discriminate.
  - cbn [binary_normalize].
    assert (Hr53 : Z.pos r < 2 ^ 53).
    { destruct (Z.le_ge_cases ea eb) as [Hle|Hle].
      - assert (e = ea) by (subst e; lia).
        replace (ea - e) with 0 in HA by lia. rewrite Z.pow_0_r in HA. lia.
      - assert (e = eb) by (subst e; lia).
        replace (eb - e) with 0 in HB by lia. rewrite Z.pow_0_r in HB. lia. }
    assert (Dr : Z.pos (digits2_pos r) <= 53).
    { pose proof (digits2_pos_bounds r) as [Lo _].
      assert (Z.pos (digits2_pos r) - 1 < 53)
        by (apply (Z.pow_lt_mono_r_iff 2); lia).
      lia. }
    assert (Le : -1074 <= e <= eb) by (subst e; lia).
    pose proof (binary_round_exact false r e) as Hx. cbv zeta in Hx.
    assert (Hfe : fexp64 (Z.pos (digits2_pos r) + e) <= e)
      by (rewrite fexp64_eq; lia).
    destruct (Hx Hfe) as (m' & Hm' & Cm' & Hround). clear Hx.
    set (fe := fexp64 (Z.pos (digits2_pos r) + e)) in *.
    assert (Hfe971 : fe <= 971) by lia.
    apply Z.leb_le in Hfe971. rewrite Hfe971 in Hround. rewrite Hround.
    apply Z.leb_le in Hfe971.
    split; [apply valid_finite; split; assumption|].
    split; [reflexivity|]. split; [discriminate|].
    unfold fltb, SFltb. rewrite SFcompare_canonical by assumption.
    rewrite Z.min_l by lia. rewrite Z.sub_diag, Z.pow_0_r, Z.mul_1_r.
    assert (Hlt : Z.pos m' < Z.pos mb * 2 ^ (eb - fe)).
    { rewrite Hm'.
      replace (eb - fe) with ((eb - e) + (e - fe)) by lia.
      rewrite Z.pow_add_r by lia. rewrite Z.mul_assoc, <- HB.
      apply Z.mul_lt_mono_pos_r; [apply Z.pow_pos_nonneg; lia | lia]. }
    apply Z.compare_lt_iff in Hlt. now rewrite Hlt.
Qed.

(** Below the divisor the C remainder returns its first argument. *)
Lemma fmod_small (ma : positive) (ea : Z) (mb : positive) (eb : Z) :
  valid (S754_finite false ma ea) = true ->
  valid (S754_finite false mb eb) = true ->
  fltb (S754_finite false ma ea) (S754_finite false mb eb) = true ->
  fmod (S754_finite false ma ea) (S754_finite false mb eb) =
  S754_finite false ma ea.
Proof.
  intros Va Vb Hlt. apply valid_finite in Va, Vb.
  destruct Va as [Ca Ba], Vb as [Cb Bb].
  unfold fltb, SFltb in Hlt. rewrite SFcompare_canonical in Hlt by assumption.
  destruct (Z.compare_spec (Z.pos ma * 2 ^ (ea - Z.min ea eb))
                           (Z.pos mb * 2 ^ (eb - Z.min ea eb)))
    as [|Hv|]; try discriminate. clear Hlt.
  pose proof (canonical_digits _ _ Ca) as (La & Da & Na).
  pose proof (canonical_digits _ _ Cb) as (Lb & Db & Nb).
  pose proof (digits2_pos_bounds ma) as [Loa _].
  pose proof (digits2_pos_bounds mb) as [_ Hib].
  assert (Hb53 : Z.pos mb < 2 ^ 53).
  { eapply Z.lt_le_trans; [exact Hib|]. apply Z.pow_le_mono_r; lia. }
  assert (Hle : ea <= eb).
  { destruct (Z.le_gt_cases ea eb) as [|Hgt]; [assumption|exfalso].
    rewrite Z.min_r in Hv by lia.
    rewrite Z.sub_diag, Z.pow_0_r, Z.mul_1_r in Hv.
    rewrite Na in Loa by lia.
    assert (2 ^ 1 <= 2 ^ (ea - eb)) by (apply Z.pow_le_mono_r; lia).
    change (2 ^ (53 - 1)) with 4503599627370496 in Loa.
    change (2 ^ 53) with 9007199254740992 in *. change (2 ^ 1) with 2 in *.
    nia. }
  rewrite Z.min_l in Hv by lia.
  rewrite Z.sub_diag, Z.pow_0_r, Z.mul_1_r in Hv.
  cbn [fmod]. rewrite Z.min_l by lia.
  rewrite (shl_align_same ma ea ea) by lia. cbn [fst].
  destruct (shl_align_value mb eb ea Hle) as [HB _]. rewrite HB.
  rewrite Z.rem_small by lia. cbn [cond_Zopp binary_normalize].
  pose proof (binary_round_exact false ma ea) as Hx. cbv zeta in Hx.
  rewrite Ca in Hx. destruct (Hx ltac:(lia)) as (m' & Hm' & _ & Hround).
  rewrite Z.sub_diag, Z.pow_0_r, Z.mul_1_r in Hm'.
  apply Z.leb_le in Ba. rewrite Ba in Hround. rewrite Hround.
  f_equal. congruence.
Qed.

(** [np.mod] of a non-negative float by a positive one lies in
    [[0, b)]. *)
Lemma np_mod_nonneg (a b : float) :
  valid a = true -> valid b = true ->
  is_nonneg_finite a = true -> is_pos_finite b = true ->
  valid (np_mod a b) = true /\
  is_nonneg_finite (np_mod a b) = true /\
  in_range (np_mod a b) b = true.
Proof.
  intros Va Vb Ha Hb.
  destruct b as [| | |[|] mb eb]; try discriminate.
  destruct a as [sa| | |[|] ma ea]; try discriminate.
  - cbn. repeat split; reflexivity.
  - pose proof (fmod_pos ma ea mb eb Va Vb) as (Vr & Nr & Zr & Lr).
    cbv zeta in *. unfold np_mod.
    set (r := fmod (S754_finite false ma ea) (S754_finite false mb eb)) in *.
    cbn [is_zero].
    destruct r as [sr| | |[|] mr er] eqn:Er; try discriminate.
    + cbn. repeat split; reflexivity.
    + change (is_neg (S754_finite false mb eb)) with false.
      change (is_neg (S754_finite false mr er)) with false.
      cbn [is_nan is_zero Bool.eqb negb]. unfold in_range. rewrite Lr.
      repeat split; try assumption; reflexivity.
Qed.

(** Inside the domain [np.mod] changes nothing but the sign of a zero. *)
Lemma np_mod_in_range (a b : float) :
  valid a = true -> valid b = true -> in_range a b = true ->
  np_mod a b = pos_zero a.
Proof.
  intros Va Vb Hr. unfold in_range in Hr.
  apply andb_true_iff in Hr. destruct Hr as [H0 Hlt].
  destruct a as [sa|[|]| |[|] ma ea]; try discriminate;
    destruct b as [sb|[|]| |[|] mb eb]; try discriminate; try reflexivity.
  unfold np_mod. rewrite (fmod_small ma ea mb eb Va Vb Hlt). reflexivity.
Qed.

End Remainder.

(** ** Arithmetic with zero and one *)

Section ZeroOne.

Lemma one_eq : one = S754_finite false 4503599627370496 (-52).
Proof. reflexivity. Qed.

Lemma fadd_pzero_l (a : float) : fadd pzero a = pos_zero a.
Proof. destruct a as [[|]|[|]| |s m e]; reflexivity. Qed.

Lemma fsub_diag (s : bool) (m : positive) (e : Z) :
  fsub (S754_finite s m e) (S754_finite s m e) = pzero.
Proof.
  unfold fsub. cbn [SFsub]. rewrite Z.min_id, Z.sub_diag. reflexivity.
Qed.

Lemma fmul_zero_zero (s t : bool) :
  fmul (S754_zero s) (S754_zero t) = S754_zero (xorb s t).
Proof. reflexivity. Qed.

(** The quotient of [m * 2^k] by [2^52]. *)
Lemma div_eucl_pow2 (m : positive) (k : Z) :
  52 <= k ->
  Z.div_eucl (Z.pos m * 2 ^ k) 4503599627370496 =
  (Z.pos m * 2 ^ (k - 52), 0).
Proof.
  intros Hk.
  pose proof (Z.mod_mul (Z.pos m * 2 ^ (k - 52)) (2 ^ 52) ltac:(lia)) as Hm.
  pose proof (Z.div_mul (Z.pos m * 2 ^ (k - 52)) (2 ^ 52) ltac:(lia)) as Hq.
  rewrite <- Z.mul_assoc, <- Z.pow_add_r in Hm, Hq by lia.
  replace (k - 52 + 52) with k in Hm, Hq by lia.
  change (2 ^ 52) with 4503599627370496 in Hm, Hq.
  unfold Z.modulo, Z.div in Hm, Hq.
  destruct (Z.div_eucl (Z.pos m * 2 ^ k) 4503599627370496) as [q r].
  cbn [fst snd] in *. now subst.
Qed.

(** Rounding twice a canonical mantissa, one exponent lower. *)
Lemma binary_round_aux_double (s : bool) (m : positive) (e : Z) :
  fexp64 (Z.pos (digits2_pos m) + e) = e ->
  binary_round_aux prec emax s (Z.pos m~0) (e - 1) loc_Exact =
  if e <=? 971 then S754_finite s m e else S754_infinity s.
Proof.
  intros H. unfold binary_round_aux, shr_fexp.
  assert (H1 : fexp prec emax (Zdigits2 (Z.pos m~0) + (e - 1)) - (e - 1) = 1).
  { cbn [Zdigits2 digits2_pos]. rewrite Pos2Z.inj_succ.
    replace (Z.succ (Z.pos (digits2_pos m)) + (e - 1))
      with (Z.pos (digits2_pos m) + e) by lia.
    unfold fexp64 in H. rewrite H. lia. }
  rewrite H1.
  cbn [shr iter_pos shr_1 shr_record_of_loc shr_m shr_r shr_s
       loc_of_shr_record round_nearest_even orb Zdigits2].
  replace (e - 1 + 1) with e by lia.
  unfold fexp64 in H. rewrite H, Z.sub_diag. reflexivity.
Qed.

(** Dividing a float64 by [1.0] returns it unchanged. *)
Lemma fdiv_one (a : float) :
  valid a = true -> is_finite a = true -> fdiv a one = a.
Proof.
  intros Va Fa. destruct a as [s|s| |s m e]; try discriminate.
  - cbn. now rewrite xorb_false_r.
  - apply valid_finite in Va. destruct Va as [Ca Ba].
    pose proof (canonical_digits _ _ Ca) as (La & Da & Na).
    rewrite one_eq. unfold fdiv. cbn [SFdiv]. rewrite xorb_false_r.
    unfold SFdiv_core_binary.
    change (Zdigits2 4503599627370496) with 53.
    change (Zdigits2 (Z.pos m)) with (Z.pos (digits2_pos m)).
    fold (fexp64 (Z.pos (digits2_pos m) + e - (53 + -52))).
    rewrite fexp64_eq.
    set (d := Z.pos (digits2_pos m)) in *.
    destruct (Z.eq_dec e (-1074)) as [E|E].
    + subst e.
      replace (Z.min (Z.max (d + -1074 - (53 + -52) - 53) (-1074))
                     (-1074 - -52)) with (-1074) by lia.
      change (-1074 - -52 - -1074) with 52.
      rewrite Z.shiftl_mul_pow2 by lia.
      rewrite div_eucl_pow2 by lia.
      rewrite Z.sub_diag, Z.pow_0_r, Z.mul_1_r.
      change (new_location 4503599627370496 0) with loc_Exact.
      rewrite binary_round_aux_canonical by assumption. reflexivity.
    + assert (Hd : d = 53) by (apply Na; lia).
      replace (Z.min (Z.max (d + e - (53 + -52) - 53) (-1074)) (e - -52))
        with (e - 1) by lia.
      replace (e - -52 - (e - 1)) with 53 by lia.
      rewrite Z.shiftl_mul_pow2 by lia.
      rewrite div_eucl_pow2 by lia.
      change (2 ^ (53 - 52)) with 2.
      change (new_location 4503599627370496 0) with loc_Exact.
      replace (Z.pos m * 2) with (Z.pos m~0) by lia.
      rewrite binary_round_aux_double by assumption.
      apply Z.leb_le in Ba. now rewrite Ba.
Qed.

End ZeroOne.

(** ** Every operation returns a float64 *)

Section Validity.

Lemma iter_pos_eq {A : Type} (f : A -> A) (p : positive) (a : A) :
  iter_pos f p a = Pos.iter f a p.
Proof.
  revert a. induction p as [p IH | p IH | ]; intros a; cbn.
  - now rewrite !IH, <- !Pos.iter_swap.
  - now rewrite !IH.
  - reflexivity.
Qed.

Lemma shr_1_m (r : shr_record) :
  0 <= shr_m r -> shr_m (shr_1 r) = shr_m r / 2.
Proof.
  destruct r as [m rb sb]. cbn [shr_m]. intros H.
  rewrite <- Z.div2_div.
  destruct m as [|[p|p|]|p]; try reflexivity; lia.
Qed.

Lemma shr_m_iter (p : positive) (r : shr_record) :
  0 <= shr_m r -> shr_m (iter_pos shr_1 p r) = shr_m r / 2 ^ Z.pos p.
Proof.
  intros H. rewrite iter_pos_eq.
  induction p as [|p IH] using Pos.peano_ind.
  - cbn [Pos.iter]. now rewrite shr_1_m.
  - rewrite Pos.iter_succ, shr_1_m, IH.
    + rewrite Z.div_div by (try apply Z.pow_pos_nonneg; lia).
      rewrite Pos2Z.inj_succ, Z.pow_succ_r by lia.
      f_equal. lia.
    + rewrite IH. apply Z.div_pos; [assumption|].
      apply Z.pow_pos_nonneg; lia.
Qed.

(** The mantissa and the exponent after [shr]. *)
Lemma shr_spec (r : shr_record) (e n : Z) :
  0 <= shr_m r -> 0 <= n ->
  shr_m (fst (shr r e n)) = shr_m r / 2 ^ n /\ snd (shr r e n) = e + n.
Proof.
  intros Hm Hn. destruct n as [|p|p]; cbn [shr fst snd].
  - rewrite Z.pow_0_r, Z.div_1_r. split; lia.
  - now rewrite shr_m_iter.
  - lia.
Qed.

Lemma shr_zero (r : shr_record) (e n : Z) :
  shr_m r = 0 -> shr_m (fst (shr r e n)) = 0.
Proof.
  intros H. destruct n as [|p|p]; cbn [shr fst]; try assumption.
  rewrite shr_m_iter by lia. rewrite H. apply Z.div_0_l.
  apply Z.pow_nonzero; lia.
Qed.

Lemma shr_record_of_loc_m (m : Z) (l : location) :
  shr_m (shr_record_of_loc m l) = m.
Proof. destruct l as [|[| |]]; reflexivity. Qed.

Lemma Zdigits2_unique (m d : Z) :
  0 < m -> 2 ^ (d - 1) <= m < 2 ^ d -> Zdigits2 m = d.
Proof.
  intros Hm H. destruct m as [|p|p]; try lia.
  cbn [Zdigits2]. now apply digits2_pos_unique.
Qed.

Lemma Zdigits2_bounds (m : Z) :
  0 < m -> 2 ^ (Zdigits2 m - 1) <= m < 2 ^ Zdigits2 m.
Proof.
  intros Hm. destruct m as [|p|p]; try lia. apply digits2_pos_bounds.
Qed.

Lemma Zdigits2_pos (m : Z) : 0 < m -> 0 < Zdigits2 m.
Proof. destruct m; cbn; lia. Qed.

(** Dropping [n] low bits drops [n] digits. *)
Lemma Zdigits2_div (m n : Z) :
  0 < m -> 0 <= n -> 0 < m / 2 ^ n ->
  Zdigits2 (m / 2 ^ n) = Zdigits2 m - n.
Proof.
  intros Hm Hn Hq. pose proof (Zdigits2_bounds m Hm) as [Lo Hi].
  assert (P : 0 < 2 ^ n) by (apply Z.pow_pos_nonneg; lia).
  assert (Hdn : n < Zdigits2 m).
  { destruct (Z.lt_ge_cases n (Zdigits2 m)) as [|Hge]; [assumption|].
    assert (2 ^ Zdigits2 m <= 2 ^ n) by (apply Z.pow_le_mono_r; lia).
    rewrite Z.div_small in Hq by lia. lia. }
  apply Zdigits2_unique; [assumption|]. split.
  - apply Z.div_le_lower_bound; [assumption|].
    rewrite <- Z.pow_add_r by lia.
    replace (n + (Zdigits2 m - n - 1)) with (Zdigits2 m - 1) by lia.
    assumption.
  - apply Z.div_lt_upper_bound; [assumption|].
    rewrite <- Z.pow_add_r by lia.
    replace (n + (Zdigits2 m - n)) with (Zdigits2 m) by lia. assumption.
Qed.

Lemma Zdigits2_le (m n : Z) : 0 < m -> m <= n -> Zdigits2 m <= Zdigits2 n.
Proof.
  intros Hm Hn. destruct m as [|p|p], n as [|q|q]; try lia.
  now apply digits2_pos_le.
Qed.

(** [shr_fexp] on a positive mantissa that is not below its canonical
    exponent: what comes out is zero or canonical. *)
Lemma shr_fexp_canonical (m e : Z) (l : location) :
  0 < m -> e <= fexp64 (Zdigits2 m + e) ->
  let out := shr_fexp prec emax m e l in
  snd out = fexp64 (Zdigits2 m + e) /\
  0 <= shr_m (fst out) /\
  (0 < shr_m (fst out) ->
   fexp64 (Zdigits2 (shr_m (fst out)) + snd out) = snd out) /\
  (shr_m (fst out) = 0 -> snd out = -1074).
Proof.
  intros Hm He out. subst out. unfold shr_fexp.
  fold (fexp64 (Zdigits2 m + e)). set (fe := fexp64 (Zdigits2 m + e)) in *.
  destruct (shr_spec (shr_record_of_loc m l) e (fe - e)) as [Sm Se];
    [rewrite shr_record_of_loc_m; lia | lia |].
  rewrite shr_record_of_loc_m in Sm. rewrite Sm, Se.
  assert (P : 0 < 2 ^ (fe - e)) by (apply Z.pow_pos_nonneg; lia).
  split; [lia|]. split; [apply Z.div_pos; lia|]. split.
  - intros Hq. rewrite Zdigits2_div by lia.
    replace (Zdigits2 m - (fe - e) + (e + (fe - e))) with (Zdigits2 m + e)
      by lia.
    fold fe. lia.
  - intros Hq. replace (e + (fe - e)) with fe by lia.
    pose proof (Zdigits2_bounds m Hm) as [Lo Hi].
    assert (Hd : Zdigits2 m <= fe - e).
    { destruct (Z.le_gt_cases (Zdigits2 m) (fe - e)) as [|Hlt]; [assumption|].
      exfalso.
      assert (2 ^ (fe - e) <= 2 ^ (Zdigits2 m - 1))
        by (apply Z.pow_le_mono_r; lia).
      assert (1 <= m / 2 ^ (fe - e))
        by (apply Z.div_le_lower_bound; lia).
      lia. }
    subst fe. rewrite fexp64_eq in *. lia.
Qed.

Lemma round_nearest_even_cases (m : Z) (l : location) :
  round_nearest_even m l = m \/ round_nearest_even m l = m + 1.
Proof.
  destruct l as [|[| |]]; cbn; auto. destruct (Z.even m); auto.
Qed.

(** Rounding a positive mantissa that is not below its canonical
    exponent gives a float64. *)
Lemma binary_round_aux_valid (s : bool) (m e : Z) (l : location) :
  0 < m -> e <= fexp64 (Zdigits2 m + e) ->
  valid (binary_round_aux prec emax s m e l) = true.
Proof.
  intros Hm He. unfold binary_round_aux.
  pose proof (shr_fexp_canonical m e l Hm He) as H1. cbv zeta in H1.
  destruct (shr_fexp prec emax m e l) as [mrs' e'].
  cbn [fst snd] in H1. destruct H1 as (E1 & N1 & C1 & Z1).
  set (m1 := round_nearest_even (shr_m mrs') (loc_of_shr_record mrs')).
  assert (Hm1 : m1 = shr_m mrs' \/ m1 = shr_m mrs' + 1)
    by apply round_nearest_even_cases.
  destruct (Z.eq_dec m1 0) as [Z0|NZ].
  - rewrite Z0. unfold shr_fexp.
    pose proof (shr_zero (shr_record_of_loc 0 loc_Exact) e'
                  (fexp prec emax (Zdigits2 0 + e') - e') eq_refl) as Hz.
    destruct (shr (shr_record_of_loc 0 loc_Exact) e'
                  (fexp prec emax (Zdigits2 0 + e') - e')) as [mrs'' e''].
    cbn [fst] in Hz. now rewrite Hz.
  - assert (P1 : 0 < m1) by lia.
    assert (He1 : e' <= fexp64 (Zdigits2 m1 + e')).
    { destruct (Z.eq_dec (shr_m mrs') 0) as [Hz|Hnz].
      - rewrite (Z1 Hz), fexp64_eq. lia.
      - assert (P0 : 0 < shr_m mrs') by lia. specialize (C1 P0).
        pose proof (Zdigits2_le (shr_m mrs') m1 P0 ltac:(lia)).
        rewrite fexp64_eq in *. lia. }
    pose proof (shr_fexp_canonical m1 e' loc_Exact P1 He1) as H2.
    cbv zeta in H2.
    destruct (shr_fexp prec emax m1 e' loc_Exact) as [mrs'' e''].
    cbn [fst snd] in H2. destruct H2 as (E2 & N2 & C2 & Z2).
    destruct (shr_m mrs'') as [|q|q] eqn:Eq; try reflexivity.
    change (emax - prec) with 971.
    destruct (e'' <=? 971) eqn:Le; [|reflexivity].
    apply valid_finite. split; [apply C2; lia | now apply Z.leb_le].
Qed.

Lemma binary_round_valid (s : bool) (m : positive) (e : Z) :
  valid (binary_round prec emax s m e) = true.
Proof.
  unfold binary_round. fold (fexp64 (Z.pos (digits2_pos m) + e)).
  set (fe := fexp64 (Z.pos (digits2_pos m) + e)).
  destruct (Z.le_gt_cases e fe) as [Hle|Hgt].
  - rewrite shl_align_same by assumption.
    apply binary_round_aux_valid; [lia | assumption].
  - destruct (shl_align_value m e fe ltac:(lia)) as [Hv He].
    destruct (shl_align m e fe) as [mz ez]. cbn [fst snd] in Hv, He. subst ez.
    apply binary_round_aux_valid; [lia|]. cbn [Zdigits2].
    rewrite (digits2_pos_shift m (e - fe) mz) by (assumption || lia).
    replace (Z.pos (digits2_pos m) + (e - fe) + fe)
      with (Z.pos (digits2_pos m) + e) by lia.
    fold fe. lia.
Qed.

Lemma binary_normalize_valid (m e : Z) (s : bool) :
  valid (binary_normalize prec emax m e s) = true.
Proof.
  destruct m; cbn [binary_normalize];
    [reflexivity | apply binary_round_valid | apply binary_round_valid].
Qed.

Lemma fadd_valid (a b : float) :
  valid a = true -> valid b = true -> valid (fadd a b) = true.
Proof.
  intros Va Vb.
  destruct a as [[|]|[|]| |sa ma ea], b as [[|]|[|]| |sb mb eb];
    try reflexivity; try assumption.
  apply binary_normalize_valid.
Qed.

Lemma fsub_valid (a b : float) :
  valid a = true -> valid b = true -> valid (fsub a b) = true.
Proof.
  intros Va Vb.
  destruct a as [[|]|[|]| |sa ma ea], b as [[|]|[|]| |sb mb eb];
    try reflexivity; try assumption.
  apply binary_normalize_valid.
Qed.

Lemma fmul_valid (a b : float) :
  valid a = true -> valid b = true -> valid (fmul a b) = true.
Proof.
  intros Va Vb.
  destruct a as [sa|sa| |sa ma ea], b as [sb|sb| |sb mb eb];
    try reflexivity.
  apply valid_finite in Va, Vb. destruct Va as [Ca _], Vb as [Cb _].
  unfold fmul. cbn [SFmul].
  apply binary_round_aux_valid; [lia|]. cbn [Zdigits2].
  pose proof (digits2_pos_bounds ma) as [Loa _].
  pose proof (digits2_pos_bounds mb) as [Lob _].
  pose proof (digits2_pos_bounds (ma * mb)) as [_ Hi].
  rewrite Pos2Z.inj_mul in Hi.
  assert (Hd : Z.pos (digits2_pos ma) + Z.pos (digits2_pos mb) - 1
               <= Z.pos (digits2_pos (ma * mb))).
  { assert (Z.pos (digits2_pos ma) - 1 + (Z.pos (digits2_pos mb) - 1)
            < Z.pos (digits2_pos (ma * mb))); [|lia].
    apply (Z.pow_lt_mono_r_iff 2); [lia | lia |].
    rewrite Z.pow_add_r by lia.
    eapply Z.le_lt_trans; [|exact Hi].
    apply Z.mul_le_mono_nonneg; try assumption;
      apply Z.pow_nonneg; lia. }
  rewrite fexp64_eq in *. lia.
Qed.

End Validity.

(** ** The remainder of a negative argument *)

Section NegativeRemainder.

Lemma binary_round_aux_opp (m e : Z) (l : location) :
  binary_round_aux prec emax true m e l =
  fopp (binary_round_aux prec emax false m e l).
Proof.
  unfold binary_round_aux.
  destruct (shr_fexp prec emax m e l) as [mrs' e'].
  destruct (shr_fexp prec emax _ e' loc_Exact) as [mrs'' e''].
  destruct (shr_m mrs''); try reflexivity.
  destruct (e'' <=? emax - prec); reflexivity.
Qed.

(** The C remainder takes the sign of its first argument. *)
Lemma fmod_opp (ma : positive) (ea : Z) (b : float) :
  fmod (S754_finite true ma ea) b = fopp (fmod (S754_finite false ma ea) b).
Proof.
  destruct b as [sb|sb| |sb mb eb]; try reflexivity.
  cbn [fmod]. set (e := Z.min ea eb).
  set (A := Z.pos (fst (shl_align ma ea e))).
  set (B := Z.pos (fst (shl_align mb eb e))).
  assert (H : 0 <= Z.rem A B) by (apply Z.rem_nonneg; subst A B; lia).
  destruct (Z.rem A B) as [|r|r]; try reflexivity; [|lia].
  cbn [cond_Zopp Z.opp binary_normalize]. unfold binary_round.
  destruct (shl_align r e _) as [mz ez]. apply binary_round_aux_opp.
Qed.

(** [shr_fexp] divides the mantissa by the power of two it shifts by. *)
Lemma shr_fexp_m (m e : Z) (l : location) :
  0 < m -> e <= fexp64 (Zdigits2 m + e) ->
  shr_m (fst (shr_fexp prec emax m e l)) =
  m / 2 ^ (fexp64 (Zdigits2 m + e) - e).
Proof.
  intros Hm He. unfold shr_fexp. fold (fexp64 (Zdigits2 m + e)).
  destruct (shr_spec (shr_record_of_loc m l) e
              (fexp64 (Zdigits2 m + e) - e)) as [Sm _];
    [rewrite shr_record_of_loc_m; lia | lia |].
  now rewrite shr_record_of_loc_m in Sm.
Qed.

(** Two facts of integer arithmetic used below. *)
Lemma scaled_le_cancel (a b q : Z) : 0 < q -> a * q <= b * q -> a <= b.
Proof. intros Hq H. now apply (Z.mul_le_mono_pos_r a b q). Qed.

Lemma normal_mantissa_too_big (m2 mb p q m1 : Z) :
  4503599627370496 <= m2 -> mb < 9007199254740992 -> 0 < p ->
  p * 2 <= q -> m2 * q <= m1 -> m1 <= mb * p -> False.
Proof.
  intros H2 Hb Hp Hq H1 HB.
  assert (m2 * (p * 2) <= m2 * q) by (apply Z.mul_le_mono_nonneg_l; lia).
  assert (4503599627370496 * (p * 2) <= m2 * (p * 2))
    by (apply Z.mul_le_mono_nonneg_r; lia).
  assert (mb * p < 9007199254740992 * p)
    by (apply Z.mul_lt_mono_pos_r; lia).
  lia.
Qed.

(** Rounding a positive value that lies below a float64 [b] gives a
    float64 that is not above [b]: rounding to nearest is monotone. *)
Lemma binary_round_below (s : positive) (e : Z) (mb : positive) (eb : Z) :
  valid (S754_finite false mb eb) = true ->
  e <= eb -> Z.pos s < Z.pos mb * 2 ^ (eb - e) ->
  is_nonneg_finite (binary_round prec emax false s e) = true /\
  fleb (binary_round prec emax false s e) (S754_finite false mb eb) = true.
Proof.
  intros Vb Hle Hlt. apply valid_finite in Vb. destruct Vb as [Cb Bb].
  pose proof (canonical_digits _ _ Cb) as (Lb & Db & Nb).
  pose proof (digits2_pos_bounds mb) as [Lob Hib].
  pose proof (digits2_pos_bounds s) as [Los His].
  set (ds := Z.pos (digits2_pos s)) in *.
  set (db := Z.pos (digits2_pos mb)) in *.
  assert (Pe : 0 < 2 ^ (eb - e)) by (apply Z.pow_pos_nonneg; lia).
  (* the magnitude of the value is at most that of [b] *)
  assert (Hmag : ds + e <= db + eb).
  { assert (2 ^ (ds - 1) < 2 ^ (db + (eb - e))).
    { rewrite Z.pow_add_r by lia. nia. }
    assert (ds - 1 < db + (eb - e))
      by (apply (Z.pow_lt_mono_r_iff 2); lia).
    lia. }
  set (fe := fexp64 (ds + e)).
  assert (Efe : fe = Z.max (ds + e - 53) (-1074)) by reflexivity.
  assert (Hfe : fe <= eb) by (rewrite fexp64_eq in Cb; lia).
  destruct (Z.le_gt_cases fe e) as [Hsmall|Hbig].
  - (* no bit is dropped *)
    destruct (binary_round_exact false s e Hsmall) as (m' & Hm' & Cm' & R).
    fold ds fe in Hm', Cm', R.
    assert (L : (fe <=? 971) = true) by (apply Z.leb_le; lia).
    rewrite L in R. rewrite R. split; [reflexivity|].
    unfold fleb, SFleb. rewrite SFcompare_canonical by assumption.
    rewrite Z.min_l by lia. rewrite Z.sub_diag, Z.pow_0_r, Z.mul_1_r.
    assert (Hc : Z.pos m' < Z.pos mb * 2 ^ (eb - fe)).
    { rewrite Hm'. replace (eb - fe) with ((eb - e) + (e - fe)) by lia.
      rewrite Z.pow_add_r, Z.mul_assoc by lia.
      apply Z.mul_lt_mono_pos_r; [apply Z.pow_pos_nonneg; lia | lia]. }
    apply Z.compare_lt_iff in Hc. now rewrite Hc.
  - (* the low bits are dropped and the mantissa is rounded *)
    unfold binary_round. fold ds. fold (fexp64 (ds + e)). fold fe.
    rewrite shl_align_same by lia.
    unfold binary_round_aux.
    assert (Hs : 0 < Z.pos s) by lia.
    assert (He : e <= fexp64 (Zdigits2 (Z.pos s) + e))
      by (change (Zdigits2 (Z.pos s)) with ds; fold fe; lia).
    pose proof (shr_fexp_canonical (Z.pos s) e loc_Exact Hs He) as H1.
    pose proof (shr_fexp_m (Z.pos s) e loc_Exact Hs He) as M1.
    cbv zeta in H1. cbn [Zdigits2] in H1, M1. fold ds fe in H1, M1.
    destruct (shr_fexp prec emax (Z.pos s) e loc_Exact) as [mrs' e'].
    cbn [fst snd] in H1, M1. destruct H1 as (E1 & N1 & C1 & Z1). subst e'.
    set (m0 := shr_m mrs') in *.
    set (m1 := round_nearest_even m0 (loc_of_shr_record mrs')).
    assert (Hm1 : m1 = m0 \/ m1 = m0 + 1) by apply round_nearest_even_cases.
    (* [b] on the grid of exponent [fe] *)
    set (Bq := Z.pos mb * 2 ^ (eb - fe)).
    assert (Pn : 0 < 2 ^ (fe - e)) by (apply Z.pow_pos_nonneg; lia).
    assert (HB : Z.pos mb * 2 ^ (eb - e) = Bq * 2 ^ (fe - e)).
    { subst Bq. rewrite <- Z.mul_assoc, <- Z.pow_add_r by lia.
      do 2 f_equal. lia. }
    assert (Hm0 : m0 < Bq).
    { rewrite M1. apply Z.div_lt_upper_bound; [assumption|].
      rewrite Z.mul_comm, <- HB. exact Hlt. }
    assert (Hm1B : m1 <= Bq) by (clear - Hm1 Hm0; lia).
    destruct (Z.eq_dec m1 0) as [Z0|NZ].
    + rewrite Z0. unfold shr_fexp.
      pose proof (shr_zero (shr_record_of_loc 0 loc_Exact) fe
                    (fexp prec emax (Zdigits2 0 + fe) - fe) eq_refl) as Hz.
      destruct (shr (shr_record_of_loc 0 loc_Exact) fe
                    (fexp prec emax (Zdigits2 0 + fe) - fe)) as [mrs'' e''].
      cbn [fst] in Hz. rewrite Hz. split; reflexivity.
    + assert (P1 : 0 < m1) by lia.
      assert (He1 : fe <= fexp64 (Zdigits2 m1 + fe)).
      { destruct (Z.eq_dec m0 0) as [Hz|Hnz].
        - rewrite (Z1 Hz), fexp64_eq. clear. lia.
        - assert (P0 : 0 < m0) by (clear - N1 Hnz; lia). specialize (C1 P0).
          pose proof (Zdigits2_le m0 m1 P0 ltac:(clear - Hm1; lia)) as Hd.
          rewrite fexp64_eq in C1 |- *. clear - C1 Hd. lia. }
      pose proof (shr_fexp_canonical m1 fe loc_Exact P1 He1) as H2.
      pose proof (shr_fexp_m m1 fe loc_Exact P1 He1) as M2.
      cbv zeta in H2.
      destruct (shr_fexp prec emax m1 fe loc_Exact) as [mrs'' e''].
      cbn [fst snd] in H2, M2. destruct H2 as (E2 & N2 & C2 & Z2).
      destruct (shr_m mrs'') as [|m2|m2] eqn:Em2; [split; reflexivity | |lia].
      specialize (C2 ltac:(lia)). cbn [Zdigits2] in C2.
      pose proof (canonical_digits _ _ C2) as (L2 & D2 & N2').
      pose proof (digits2_pos_bounds m2) as [Lo2 Hi2].
      assert (Hge : fe <= e'') by (rewrite E2; exact He1).
      assert (P2 : 0 < 2 ^ (e'' - fe)) by (apply Z.pow_pos_nonneg; lia).
      assert (Hm2 : Z.pos m2 * 2 ^ (e'' - fe) <= m1).
      { rewrite M2, <- E2, Z.mul_comm. apply Z.mul_div_le. assumption. }
      assert (Hexp : e'' <= eb).
      { destruct (Z.le_gt_cases e'' eb) as [|Hgt]; [assumption|exfalso].
        rewrite N2' in Lo2 by (clear - Hgt Lb; lia).
        assert (Hb53 : Z.pos mb < 2 ^ 53).
        { eapply Z.lt_le_trans; [exact Hib|].
          apply Z.pow_le_mono_r; [|exact Db]. clear. lia. }
        assert (Hq : 2 ^ (eb - fe) * 2 <= 2 ^ (e'' - fe)).
        { change 2 with (2 ^ 1) at 2.
          rewrite <- Z.pow_add_r by (clear - Hfe; lia).
          apply Z.pow_le_mono_r; clear - Hgt Hfe; lia. }
        assert (Hp : 0 < 2 ^ (eb - fe))
          by (apply Z.pow_pos_nonneg; clear - Hfe; lia).
        exact (normal_mantissa_too_big (Z.pos m2) (Z.pos mb)
                 (2 ^ (eb - fe)) (2 ^ (e'' - fe)) m1 Lo2 Hb53 Hp Hq Hm2
                 Hm1B). }
      change (emax - prec) with 971.
      assert (L : (e'' <=? 971) = true) by (apply Z.leb_le; lia).
      rewrite L. split; [reflexivity|].
      unfold fleb, SFleb. rewrite SFcompare_canonical by assumption.
      rewrite Z.min_l by lia. rewrite Z.sub_diag, Z.pow_0_r, Z.mul_1_r.
      assert (Hc : Z.pos m2 <= Z.pos mb * 2 ^ (eb - e'')).
      { assert (HBq : Bq = Z.pos mb * 2 ^ (eb - e'') * 2 ^ (e'' - fe)).
        { subst Bq. rewrite <- Z.mul_assoc, <- Z.pow_add_r
            by (clear - Hexp Hge; lia).
          do 2 f_equal. clear. lia. }
        apply (scaled_le_cancel _ _ (2 ^ (e'' - fe)) P2).
        rewrite <- HBq. clear - Hm2 Hm1B. lia. }
      destruct (Z.compare_spec (Z.pos m2) (Z.pos mb * 2 ^ (eb - e'')))
        as [| |Hgt]; try reflexivity. clear - Hc Hgt. lia.
Qed.

(** [np.mod] of a negative float64 by a positive one lies in [[0, b]]:
    the remainder [r] is exact, [r + b] is positive and below [b], and
    its rounding can reach [b] but not pass it. *)
Lemma np_mod_negative (ma : positive) (ea : Z) (b : float) :
  valid (S754_finite true ma ea) = true ->
  valid b = true -> is_pos_finite b = true ->
  valid (np_mod (S754_finite true ma ea) b) = true /\
  is_nonneg_finite (np_mod (S754_finite true ma ea) b) = true /\
  fleb (np_mod (S754_finite true ma ea) b) b = true.
Proof.
  intros Va Vb Pb. destruct b as [| | |[|] mb eb]; try discriminate.
  pose proof (fmod_pos ma ea mb eb Va Vb) as (Vr & Nr & Zr & Lr).
  cbv zeta in *. unfold np_mod. rewrite fmod_opp.
  set (r := fmod (S754_finite false ma ea) (S754_finite false mb eb)) in *.
  assert (Vb' := Vb).
  destruct r as [sr| | |[|] mr er] eqn:Er; try discriminate.
  - cbn. repeat split; reflexivity.
  - change (is_neg (S754_finite false mb eb)) with false.
    cbn [fopp SFopp negb is_zero is_nan].
    change (is_neg (S754_finite true mr er)) with true.
    cbn [Bool.eqb negb].
    apply valid_finite in Vr, Vb. destruct Vr as [Cr Br], Vb as [Cb Bb].
    unfold fltb, SFltb in Lr. rewrite SFcompare_canonical in Lr by assumption.
    destruct (Z.compare_spec (Z.pos mr * 2 ^ (er - Z.min er eb))
                             (Z.pos mb * 2 ^ (eb - Z.min er eb)))
      as [|Hv|]; try discriminate. clear Lr.
    unfold fadd. cbn [SFadd cond_Zopp]. set (ez := Z.min er eb) in *.
    destruct (shl_align_value mr er ez ltac:(subst ez; lia)) as [HM _].
    destruct (shl_align_value mb eb ez ltac:(subst ez; lia)) as [HB _].
    rewrite HM, HB.
    destruct (- (Z.pos mr * 2 ^ (er - ez)) + Z.pos mb * 2 ^ (eb - ez))
      as [|s|s] eqn:Es; try lia.
    cbn [binary_normalize]. split; [apply binary_round_valid|].
    apply binary_round_below; [assumption | subst ez; lia |].
    assert (0 < Z.pos mr * 2 ^ (er - ez)); [|lia].
    apply Z.mul_pos_pos; [lia | apply Z.pow_pos_nonneg; subst ez; lia].
Qed.

(** [np.mod] of any finite float64 by a positive finite one is a float64
    in [[0, b]]. *)
Lemma np_mod_closed_range (a b : float) :
  valid a = true -> valid b = true ->
  is_finite a = true -> is_pos_finite b = true ->
  valid (np_mod a b) = true /\
  is_nonneg_finite (np_mod a b) = true /\
  fleb (np_mod a b) b = true.
Proof.
  intros Va Vb Fa Pb.
  destruct a as [sa|sa| |[|] ma ea]; try discriminate.
  - destruct (np_mod_nonneg (S754_zero sa) b Va Vb eq_refl Pb)
      as (V & N & R).
    unfold in_range in R. apply andb_true_iff in R. destruct R as [_ R].
    repeat split; try assumption.
    unfold fltb, SFltb in R. unfold fleb, SFleb.
    destruct (SFcompare _ b) as [[| |]|]; try discriminate; reflexivity.
  - now apply np_mod_negative.
  - destruct (np_mod_nonneg (S754_finite false ma ea) b Va Vb eq_refl Pb)
      as (V & N & R).
    unfold in_range in R. apply andb_true_iff in R. destruct R as [_ R].
    repeat split; try assumption.
    unfold fltb, SFltb in R. unfold fleb, SFleb.
    destruct (SFcompare _ b) as [[| |]|]; try discriminate; reflexivity.
Qed.

End NegativeRemainder.

(** * The particle methods *)

Section MoveFacts.

(** [move] on arrays: it cannot raise, and this is the state it leaves. *)
Lemma move_arrays (p : Particles) (xs ys : Np.ndarray) :
  x p = Some xs -> y p = Some ys ->
  move p =
  (Ok tt,
   {| rng := rng_after p xs ys;
      space := space p;
      x := Some (map (fun v => np_mod v (length_x (space p)))
                     (prewrap_x p xs));
      y := Some (map (fun v => np_mod v (length_y (space p)))
                     (prewrap_y p xs ys));
      step_length := step_length p;
      steps_done := steps_done p + 1 |}).
Proof.
  destruct p as [r sp px py sl sd]. cbn [x y]. intros -> ->. reflexivity.
Qed.

Lemma map2_length (f : float -> float -> float) (a b : Np.ndarray) :
  length b = length a -> length (Np.map2 f a b) = length a.
Proof.
  revert b. induction a as [|u a IH]; intros [|v b] H;
    try discriminate; cbn; [reflexivity|].
  f_equal. apply IH. now injection H.
Qed.

Lemma normal_length (r : Np.RandomState) (n : nat) :
  length (fst (Np.normal r n)) = n.
Proof. cbn. now rewrite length_map, length_seq. Qed.

Lemma normal_gauss (r : Np.RandomState) (n : nat) :
  Np.gauss (snd (Np.normal r n)) = Np.gauss r.
Proof. reflexivity. Qed.

Lemma normal_Forall (P : float -> Prop) (r : Np.RandomState) (n : nat) :
  (forall i, P (Np.gauss r i)) -> Forall P (fst (Np.normal r n)).
Proof. intros H. cbn. apply Forall_map, Forall_forall. intros i _. apply H. Qed.

Lemma displaced_length (a : Np.ndarray) (s : float) (d : Np.ndarray) :
  length d = length a -> length (displaced a s d) = length a.
Proof.
  intros H. unfold displaced. apply map2_length. now rewrite length_map.
Qed.

Lemma prewrap_x_length (p : Particles) (xs : Np.ndarray) :
  length (prewrap_x p xs) = length xs.
Proof. apply displaced_length, normal_length. Qed.

Lemma prewrap_y_length (p : Particles) (xs ys : Np.ndarray) :
  length (prewrap_y p xs ys) = length ys.
Proof. apply displaced_length, normal_length. Qed.

(** Every displaced value is a float64 when the inputs are. *)
Lemma displaced_valid (a : Np.ndarray) (s : float) (d : Np.ndarray) :
  Forall (fun v => valid v = true) a -> valid s = true ->
  Forall (fun v => valid v = true) d ->
  Forall (fun v => valid v = true) (displaced a s d).
Proof.
  intros Ha Hs Hd. unfold displaced. revert d Hd.
  induction Ha as [|u a Hu Ha IH]; intros [|g d] Hd; cbn; constructor.
  - inversion Hd; subst. apply fadd_valid; [assumption|].
    now apply fmul_valid.
  - inversion Hd; subst. now apply IH.
Qed.

End MoveFacts.

(** * Wrapping into the domain *)

Section Wrapping.

(** X2.  Non-negative float64 coordinates are wrapped into the
    half-open range [[0, length)], for positive finite extents. *)
Lemma normalize_positions_nonneg (s : PeriodicSpace) (xs ys : Np.ndarray) :
  float64 (length_x s) -> is_pos_finite (length_x s) = true ->
  float64 (length_y s) -> is_pos_finite (length_y s) = true ->
  Forall (fun v => float64 v /\ is_nonneg_finite v = true) xs ->
  Forall (fun v => float64 v /\ is_nonneg_finite v = true) ys ->
  Forall (fun v => in_range v (length_x s) = true)
         (fst (normalize_positions s xs ys)) /\
  Forall (fun v => in_range v (length_y s) = true)
         (snd (normalize_positions s xs ys)).
Proof.
  intros Vx Px Vy Py Hx Hy. cbn [normalize_positions fst snd].
  split; apply Forall_map.
  - eapply Forall_impl; [|exact Hx]. intros v [Hv Hn].
    now apply np_mod_nonneg.
  - eapply Forall_impl; [|exact Hy]. intros v [Hv Hn].
    now apply np_mod_nonneg.
Qed.

(** X3.  Every finite coordinate is wrapped into the closed range
    [[0, length]]: the upper end is the only value outside the domain
    that [normalize_positions] can return for finite input. *)
Lemma normalize_positions_closed (s : PeriodicSpace) (xs ys : Np.ndarray) :
  float64 (length_x s) -> is_pos_finite (length_x s) = true ->
  float64 (length_y s) -> is_pos_finite (length_y s) = true ->
  Forall (fun v => float64 v /\ is_finite v = true) xs ->
  Forall (fun v => float64 v /\ is_finite v = true) ys ->
  Forall (fun v => float64 v /\ is_nonneg_finite v = true /\
                   fleb v (length_x s) = true)
         (fst (normalize_positions s xs ys)) /\
  Forall (fun v => float64 v /\ is_nonneg_finite v = true /\
                   fleb v (length_y s) = true)
         (snd (normalize_positions s xs ys)).
Proof.
  intros Vx Px Vy Py Hx Hy. cbn [normalize_positions fst snd].
  split; apply Forall_map.
  - eapply Forall_impl; [|exact Hx]. intros v [Hv Hn].
    now apply np_mod_closed_range.
  - eapply Forall_impl; [|exact Hy]. intros v [Hv Hn].
    now apply np_mod_closed_range.
Qed.

(** The notebook's own check: the centre of the default box is not
    moved. *)
Example normalize_positions_centre :
  let '(lx, ly) := get_sizes PeriodicSpace_default in
  normalize_positions PeriodicSpace_default
    [fdiv lx (of_Z 2)] [fdiv ly (of_Z 2)]
  = ([fdiv lx (of_Z 2)], [fdiv ly (of_Z 2)]).
Proof. vm_compute. reflexivity. Qed.

(** C1.  The specification states that [normalize_positions] returns
    values with [0 <= x_norm < length_x] for every finite input, negative
    ones included.  In the box of extents 10 and 20 the input
    [(-0.1, 0.0)] is wrapped to [(9.9, 0.0)] as stated, but the input
    [(-2^-60, 0.0)] is wrapped to [(10.0, 0.0)]: the remainder [-2^-60]
    is moved by one period and [10 - 2^-60] rounds to [10.0], which is
    [length_x] itself and not below it. *)
Theorem normalize_positions_returns_length_x :
  normalize_positions PeriodicSpace_default [fopp (dec 1 10)] [pzero]
    = ([dec 99 10], [pzero]) /\
  is_finite tiny_negative = true /\
  normalize_positions PeriodicSpace_default [tiny_negative] [pzero]
    = ([of_Z 10], [pzero]) /\
  in_range (of_Z 10) (length_x PeriodicSpace_default) = false.
Proof. repeat split; vm_compute; reflexivity. Qed.

End Wrapping.

(** * One step of the walk *)

Section MoveInvariant.


(** What [move] guarantees for every displaced value that is finite,
    negative ones included: the wrapped coordinate is a float64 in the
    closed range [[0, length]]. *)
Lemma move_closed_box (p : Particles) (xs ys : Np.ndarray) :
  x p = Some xs -> y p = Some ys ->
  Forall float64 xs -> Forall float64 ys ->
  float64 (step_length p) -> (forall i, float64 (Np.gauss (rng p) i)) ->
  float64 (length_x (space p)) -> is_pos_finite (length_x (space p)) = true ->
  float64 (length_y (space p)) -> is_pos_finite (length_y (space p)) = true ->
  Forall (fun a => is_finite a = true) (prewrap_x p xs) ->
  Forall (fun a => is_finite a = true) (prewrap_y p xs ys) ->
  exists (xs' ys' : Np.ndarray),
    x (snd (move p)) = Some xs' /\ y (snd (move p)) = Some ys' /\
    Forall (fun v => float64 v /\ is_nonneg_finite v = true /\
                     fleb v (length_x (space p)) = true) xs' /\
    Forall (fun v => float64 v /\ is_nonneg_finite v = true /\
                     fleb v (length_y (space p)) = true) ys'.
Proof.
  intros Hx Hy Vxs Vys Vs Vg Vlx Plx Vly Ply Fx Fy.
  rewrite (move_arrays p xs ys Hx Hy). cbn [snd x y].
  eexists _, _. split; [reflexivity|]. split; [reflexivity|].
  assert (Wx : Forall (fun v => valid v = true) (prewrap_x p xs)).
  { apply displaced_valid; try assumption. apply normal_Forall, Vg. }
  assert (Wy : Forall (fun v => valid v = true) (prewrap_y p xs ys)).
  { apply displaced_valid; try assumption. apply normal_Forall.
    intros i. rewrite normal_gauss. apply Vg. }
  split; apply Forall_map.
  - induction Wx as [|a l Va _ IH]; constructor.
    + inversion Fx; subst. now apply np_mod_closed_range.
    + inversion Fx; subst. now apply IH.
  - induction Wy as [|a l Va _ IH]; constructor.
    + inversion Fy; subst. now apply np_mod_closed_range.
    + inversion Fy; subst. now apply IH.
Qed.

End MoveInvariant.

(** * The driver *)

Section Driver.

Lemma diagnostics_arrays (p : Particles) (xs ys : Np.ndarray) :
  x p = Some xs -> y p = Some ys ->
  diagnostics p =
  (Ok [ {| index := steps_done p;
           col_center_of_mass_x := Np.mean xs;
           col_center_of_mass_y := Np.mean ys;
           col_moment_of_inertia := fadd (Np.var 0 xs) (Np.var 0 ys) |} ],
   p).
Proof.
  destruct p as [r sp px py sl sd]. cbn [x y]. intros -> ->. reflexivity.
Qed.

Lemma positions_arrays (p : Particles) (xs ys : Np.ndarray) :
  x p = Some xs -> y p = Some ys -> length xs = length ys ->
  positions p =
  (Ok (map (fun q => (Some (fst q), Some (snd q))) (combine xs ys)), p).
Proof.
  destruct p as [r sp px py sl sd]. cbn [x y]. intros -> -> E.
  unfold positions, bind, get. cbn [x y]. now rewrite E, Nat.eqb_refl.
Qed.

Lemma relabel_index (rows : DataFrame) (start : nat) :
  map index (map (fun ir => set_index (Z.of_nat (fst ir)) (snd ir))
                 (combine (seq start (length rows)) rows))
  = map Z.of_nat (seq start (length rows)).
Proof.
  revert start. induction rows as [|r rows IH]; intros start; cbn;
    [reflexivity|]. f_equal. apply IH.
Qed.

Lemma df_append_length (df other : DataFrame) (b : bool) :
  length (df_append df other b) = (length df + length other)%nat.
Proof.
  unfold df_append. destruct b; rewrite ?length_map, ?length_combine,
    ?length_seq, ?length_app; lia.
Qed.

Lemma df_append_labelled (df other : DataFrame) :
  labelled (df_append df other true).
Proof.
  unfold labelled. rewrite df_append_length. unfold df_append.
  rewrite relabel_index. now rewrite length_app.
Qed.

(** Relabelling rows that already carry their position changes nothing,
    so in the loop the label of a row is the [steps_done] it was taken
    at. *)
Lemma relabel_labelled (rows : DataFrame) (start : nat) :
  map index rows = map Z.of_nat (seq start (length rows)) ->
  map (fun ir => set_index (Z.of_nat (fst ir)) (snd ir))
      (combine (seq start (length rows)) rows) = rows.
Proof.
  revert start. induction rows as [|r rows IH]; intros start H; cbn;
    [reflexivity|].
  cbn in H. injection H as H0 H1. f_equal.
  - rewrite <- H0. now destruct r.
  - now apply IH.
Qed.

Lemma df_append_steps_done (df : DataFrame) (r : DiagRow) :
  labelled df -> index r = Z.of_nat (length df) ->
  df_append df [r] true = df ++ [r].
Proof.
  intros L Hr. unfold df_append. apply relabel_labelled.
  rewrite map_app, length_app, seq_app, map_app. cbn. now rewrite L, Hr.
Qed.

(** The loop: it cannot raise on arrays; it appends one row per step and
    the labels stay the step counts. *)
Lemma run_steps_arrays (steps : list Z) :
  forall (df : DataFrame) (p : Particles) (xs ys : Np.ndarray),
    x p = Some xs -> y p = Some ys ->
    labelled df -> steps_done p + 1 = Z.of_nat (length df) ->
    exists (df' : DataFrame) (p' : Particles) (xs' ys' : Np.ndarray),
      run_steps steps df p = (Ok df', p') /\
      x p' = Some xs' /\ y p' = Some ys' /\
      length xs' = length xs /\ length ys' = length ys /\
      labelled df' /\
      length df' = (length df + length steps)%nat /\
      steps_done p' + 1 = Z.of_nat (length df').
Proof.
  induction steps as [|i steps IH]; intros df p xs ys Hx Hy L S.
  - exists df, p, xs, ys. cbn. rewrite Nat.add_0_r. auto 10.
  - cbn [run_steps]. unfold bind at 1. rewrite (move_arrays p xs ys Hx Hy).
    set (p1 := {| rng := rng_after p xs ys |}).
    unfold bind at 1.
    rewrite (diagnostics_arrays p1 _ _ eq_refl eq_refl).
    set (row := {| index := steps_done p1 |}).
    destruct (IH (df_append df [row] true) p1 _ _ eq_refl eq_refl)
      as (df' & p' & xs' & ys' & R & X & Y & Lx & Ly & L' & N & S').
    + apply df_append_labelled.
    + rewrite df_append_length. subst p1. cbn [steps_done length]. lia.
    + rewrite df_append_length in N. cbn [length] in N.
      rewrite length_map, prewrap_x_length in Lx.
      rewrite length_map, prewrap_y_length in Ly.
      exists df', p', xs', ys'. rewrite R. cbn [length].
      repeat split; auto; lia.
Qed.

Lemma py_range_length (a b : Z) :
  a <= b -> Z.of_nat (length (py_range a b)) = b - a.
Proof. intros H. unfold py_range. rewrite length_map, length_seq. lia. Qed.

Lemma half_length (ones : Np.ndarray) (l : float) :
  length (map (fun o => fdiv (fmul o l) (of_Z 2)) ones) = length ones.
Proof. apply length_map. Qed.

(** The experiment on two arrays of one length, started at step 0. *)
Lemma experiment_arrays (number_steps : Z) (p : Particles)
    (xs ys : Np.ndarray) :
  x p = Some xs -> y p = Some ys -> length xs = length ys ->
  steps_done p = 0 ->
  exists (o : Outcome) (p' : Particles),
    experiment number_steps p = (Ok o, p') /\
    labelled (diags o) /\
    length (diags o) = S (length (py_range 1 number_steps)) /\
    length (initial_positions o) = length xs /\
    length (final_positions o) = length xs.
Proof.
  intros Hx Hy E S0. unfold experiment.
  unfold bind at 1. rewrite (positions_arrays p xs ys Hx Hy E).
  unfold bind at 1. rewrite (diagnostics_arrays p xs ys Hx Hy).
  set (row := {| index := steps_done p |}).
  destruct (run_steps_arrays (py_range 1 number_steps) [row] p xs ys Hx Hy)
    as (df' & p' & xs' & ys' & R & X & Y & Lx & Ly & L' & N & S').
  { unfold labelled. cbn. now rewrite S0. }
  { cbn. lia. }
  unfold bind at 1. rewrite R.
  unfold bind at 1.
  rewrite (positions_arrays p' xs' ys' X Y ltac:(congruence)).
  eexists _, _. split; [reflexivity|]. cbn [diags initial_positions
    final_positions]. split; [assumption|]. split; [exact N|].
  rewrite !length_map, !length_combine. lia.
Qed.

End Driver.

(** * The outcome as a function of the draws *)

Section Draws.

Lemma normal_same (r1 r2 : Np.RandomState) (n : nat) :
  same_draws r1 r2 ->
  fst (Np.normal r1 n) = fst (Np.normal r2 n) /\
  same_draws (snd (Np.normal r1 n)) (snd (Np.normal r2 n)).
Proof.
  intros [D G]. cbn. rewrite D. split.
  - apply map_ext. exact G.
  - split; [reflexivity | exact G].
Qed.

(** Sequencing two computations that agree. *)
Lemma bind_agrees {A B : Type} (c : SE Particles A)
    (k : A -> SE Particles B) (p1 p2 : Particles) :
  agrees c p1 p2 ->
  (forall a q1 q2, same_particles q1 q2 -> agrees (k a) q1 q2) ->
  agrees (bind c k) p1 p2.
Proof.
  unfold agrees, bind. intros [E S] K.
  destruct (c p1) as [[a1|x1] q1], (c p2) as [[a2|x2] q2];
    cbn [fst snd] in E, S; try discriminate.
  - injection E as ->. now apply K.
  - injection E as ->. cbn [fst snd]. split; [reflexivity | assumption].
Qed.

Lemma ret_agrees {A : Type} (a : A) (p1 p2 : Particles) :
  same_particles p1 p2 -> agrees (ret a) p1 p2.
Proof. intros S. split; [reflexivity | exact S]. Qed.

Lemma move_agrees (p1 p2 : Particles) :
  same_particles p1 p2 -> agrees move p1 p2.
Proof.
  intros (R & Sp & X & Y & Sl & Sd & xs & ys & Hx & Hy).
  unfold agrees.
  rewrite (move_arrays p1 xs ys Hx Hy).
  rewrite (move_arrays p2 xs ys) by congruence.
  cbn [fst snd]. split; [reflexivity|].
  destruct (normal_same _ _ (length xs) R) as [Dx Rx].
  destruct (normal_same _ _ (length ys) Rx) as [Dy Ry].
  unfold same_particles, rng_after, prewrap_x, prewrap_y.
  cbn [rng space x y step_length steps_done].
  rewrite Sp, Sl, Sd, Dx, Dy. eauto 12.
Qed.

Lemma diagnostics_agrees (p1 p2 : Particles) :
  same_particles p1 p2 -> agrees diagnostics p1 p2.
Proof.
  intros S. pose proof S as (R & Sp & X & Y & Sl & Sd & xs & ys & Hx & Hy).
  unfold agrees.
  rewrite (diagnostics_arrays p1 xs ys Hx Hy).
  rewrite (diagnostics_arrays p2 xs ys) by congruence.
  cbn [fst snd]. rewrite Sd. auto.
Qed.

Lemma positions_agrees (p1 p2 : Particles) :
  same_particles p1 p2 -> agrees positions p1 p2.
Proof.
  intros S. pose proof S as (R & Sp & X & Y & Sl & Sd & _).
  unfold agrees, positions, bind, get. rewrite X, Y.
  destruct (x p2) as [xs|], (y p2) as [ys|]; cbn; auto.
  destruct (length xs =? length ys)%nat; cbn; auto.
Qed.

Lemma run_steps_agrees (steps : list Z) :
  forall (df : DataFrame) (p1 p2 : Particles),
    same_particles p1 p2 -> agrees (run_steps steps df) p1 p2.
Proof.
  induction steps as [|i steps IH]; intros df p1 p2 S; cbn [run_steps].
  - now apply ret_agrees.
  - apply bind_agrees; [now apply move_agrees|]. intros _ q1 q2 S1.
    apply bind_agrees; [now apply diagnostics_agrees|]. intros d r1 r2 S2.
    now apply IH.
Qed.

Lemma experiment_agrees (number_steps : Z) (p1 p2 : Particles) :
  same_particles p1 p2 -> agrees (experiment number_steps) p1 p2.
Proof.
  intros S. unfold experiment.
  apply bind_agrees; [now apply positions_agrees|]. intros i q1 q2 S1.
  apply bind_agrees; [now apply diagnostics_agrees|]. intros d r1 r2 S2.
  apply bind_agrees; [now apply run_steps_agrees|]. intros ds s1 s2 S3.
  apply bind_agrees; [now apply positions_agrees|]. intros f t1 t2 S4.
  now apply ret_agrees.
Qed.

(** The outcome of [run_random_walk] depends on the entropy only through
    the draws it yields: with a generator that can be seeded, a fixed
    seed would fix the outcome. *)
Lemma run_random_walk_determined_by_draws (e1 e2 : nat -> float)
    (length_x length_y : float) (number_particles number_steps : Z)
    (step_length : float) :
  (forall i, e1 i = e2 i) ->
  snd (run_random_walk e1 length_x length_y number_particles number_steps
                       step_length)
  = snd (run_random_walk e2 length_x length_y number_particles number_steps
                         step_length).
Proof.
  intros He. unfold run_random_walk.
  destruct (Np.ones number_particles) as [ones|e]; [|reflexivity].
  cbn [Particles_init snd].
  apply experiment_agrees.
  unfold same_particles, same_draws. cbn. eauto 12.
Qed.

End Draws.

(** * Results about [run_random_walk] and the constructor *)

Section RunRandomWalk.

(** [run_random_walk] with a particle count that is not negative: three
    objects are constructed and the run returns. *)
Lemma run_random_walk_arrays (entropy : nat -> float)
    (length_x length_y : float) (number_particles number_steps : Z)
    (step_length : float) :
  0 <= number_particles ->
  exists (o : Outcome) (particles : Particles),
    run_random_walk entropy length_x length_y number_particles number_steps
                    step_length
    = ([TheSpace (PeriodicSpace_init length_x length_y);
        TheRng (Np.RandomState_init entropy);
        TheParticles particles], Ok o) /\
    labelled (diags o) /\
    length (diags o) = S (length (py_range 1 number_steps)) /\
    length (initial_positions o) = Z.to_nat number_particles /\
    length (final_positions o) = Z.to_nat number_particles.
Proof.
  intros Hn. unfold run_random_walk, Np.ones.
  destruct (Z.ltb_spec number_particles 0) as [|_]; [lia|].
  cbn [Particles_init].
  set (ones := repeat (of_Z 1) (Z.to_nat number_particles)).
  set (p := {| rng := Np.RandomState_init entropy |}).
  destruct (experiment_arrays number_steps p _ _ eq_refl eq_refl)
    as (o & p' & R & L & N & I & F).
  { now rewrite !half_length. }
  { reflexivity. }
  exists o, p. rewrite R. cbn [app fst].
  rewrite half_length in I, F. subst ones. rewrite repeat_length in I, F.
  auto.
Qed.

Lemma sorted_labels (start n : nat) :
  StronglySorted Z.lt (map Z.of_nat (seq start n)).
Proof.
  revert start. induction n as [|n IH]; intros start; cbn; constructor.
  - apply IH.
  - apply Forall_map, Forall_forall. intros i Hi.
    apply in_seq in Hi. lia.
Qed.

Lemma py_range_0 (n : Z) :
  py_range 0 n = map Z.of_nat (seq 0 (Z.to_nat n)).
Proof.
  unfold py_range. rewrite Z.sub_0_r. apply map_ext. intros i. lia.
Qed.

(** C5.  For [number_steps >= 1] (and a particle count that numpy
    accepts) [run_random_walk] returns, and its diagnostics frame has
    exactly [number_steps] rows labelled [0, 1, ..., number_steps - 1] in
    this order: strictly increasing, nothing skipped or repeated; for
    [number_steps = 1] it is the single row of step 0. *)
Theorem diagnostics_one_row_per_step (entropy : nat -> float)
    (length_x length_y : float) (number_particles number_steps : Z)
    (step_length : float) :
  1 <= number_steps -> 0 <= number_particles ->
  exists o : Outcome,
    snd (run_random_walk entropy length_x length_y number_particles
                         number_steps step_length) = Ok o /\
    Z.of_nat (length (diags o)) = number_steps /\
    map index (diags o) = py_range 0 number_steps /\
    StronglySorted Z.lt (map index (diags o)) /\
    (number_steps = 1 -> map index (diags o) = [0]).
Proof.
  intros Hs Hn.
  destruct (run_random_walk_arrays entropy length_x length_y number_particles
              number_steps step_length Hn)
    as (o & p & R & L & N & _ & _).
  exists o. rewrite R. split; [reflexivity|].
  assert (Hlen : Z.of_nat (length (diags o)) = number_steps).
  { rewrite N, Nat2Z.inj_succ, py_range_length by lia. lia. }
  assert (Hidx : map index (diags o) = py_range 0 number_steps).
  { rewrite py_range_0, L. do 2 f_equal. lia. }
  split; [assumption|]. split; [assumption|]. split.
  - rewrite L. apply sorted_labels.
  - intros ->. now rewrite Hidx.
Qed.

Lemma diagnostics_one_row_per_step_witness :
  exists o : Outcome,
    snd (run_random_walk sample_entropy (of_Z 10) (of_Z 20) 2 3 (dec 1 2))
      = Ok o /\
    Z.of_nat (length (diags o)) = 3 /\
    map index (diags o) = py_range 0 3 /\
    StronglySorted Z.lt (map index (diags o)) /\
    (3 = 1 -> map index (diags o) = [0]).
Proof.
  apply (diagnostics_one_row_per_step sample_entropy (of_Z 10) (of_Z 20) 2 3
           (dec 1 2)); lia.
Defined.

(** C3 as the specification states it (invalid parameters raise a
    validation error before anything is constructed) does not hold: a
    negative and a zero extent, a negative step length and a step count
    of zero are all accepted, and so is a particle count of zero; a
    negative particle count is refused by numpy only after the domain and
    the generator exist. *)
Lemma run_random_walk_accepts_bad_parameters :
  is_ok (snd (run_random_walk sample_entropy (of_Z (-10)) (of_Z 0) 3 0
                              (fopp (dec 1 2)))) = true /\
  is_ok (snd (run_random_walk sample_entropy (of_Z 10) (of_Z 20) 0 (-5)
                              (dec 1 2))) = true /\
  length (fst (run_random_walk sample_entropy (of_Z 10) (of_Z 20) (-1) 100
                               (dec 1 2))) = 2%nat /\
  snd (run_random_walk sample_entropy (of_Z 10) (of_Z 20) (-1) 100
                       (dec 1 2)) = Raise ValueError.
Proof. repeat split; vm_compute; reflexivity. Qed.

(** C3, amended.  [run_random_walk] validates none of its parameters.
    Whatever the extents, the step length and the step count, a call with
    a particle count that is not negative constructs the domain, the
    generator and the particles and returns a result; a call with a
    negative particle count raises numpy's [ValueError] when the position
    arrays are allocated, after the domain and the generator have been
    constructed. *)
Theorem run_random_walk_validates_nothing (entropy : nat -> float)
    (length_x length_y : float) (number_particles number_steps : Z)
    (step_length : float) :
  let r := run_random_walk entropy length_x length_y number_particles
                           number_steps step_length in
  (0 <= number_particles ->
   length (fst r) = 3%nat /\ is_ok (snd r) = true) /\
  (number_particles < 0 ->
   fst r = [TheSpace (PeriodicSpace_init length_x length_y);
            TheRng (Np.RandomState_init entropy)] /\
   snd r = Raise ValueError).
Proof.
  intros r. subst r. split.
  - intros Hn.
    destruct (run_random_walk_arrays entropy length_x length_y
                number_particles number_steps step_length Hn)
      as (o & p & R & _). rewrite R. split; reflexivity.
  - intros Hn. unfold run_random_walk, Np.ones.
    destruct (Z.ltb_spec number_particles 0) as [_|]; [|lia].
    split; reflexivity.
Qed.

Lemma run_random_walk_validates_nothing_witness :
  (length (fst (run_random_walk sample_entropy (of_Z (-10)) (of_Z 0) 3 0
                                (fopp (dec 1 2)))) = 3%nat /\
   is_ok (snd (run_random_walk sample_entropy (of_Z (-10)) (of_Z 0) 3 0
                               (fopp (dec 1 2)))) = true) /\
  (fst (run_random_walk sample_entropy (of_Z 10) (of_Z 20) (-1) 100
                        (dec 1 2))
   = [TheSpace (PeriodicSpace_init (of_Z 10) (of_Z 20));
      TheRng (Np.RandomState_init sample_entropy)] /\
   snd (run_random_walk sample_entropy (of_Z 10) (of_Z 20) (-1) 100
                        (dec 1 2)) = Raise ValueError).
Proof.
  split.
  - apply (run_random_walk_validates_nothing sample_entropy (of_Z (-10))
             (of_Z 0) 3 0 (fopp (dec 1 2))). lia.
  - apply (run_random_walk_validates_nothing sample_entropy (of_Z 10)
             (of_Z 20) (-1) 100 (dec 1 2)). lia.
Defined.

(** C6.  The specification states that two calls with the parameters
    [(10, 20, 100, 100, 0.5)] and one seed give identical results.
    [run_random_walk] has no seed parameter: every call builds an
    unseeded [RandomState()], so the draws are an input the caller does
    not control, and two calls with these parameters that read different
    entropy end in different positions.  (Equal draws do give equal
    outcomes, see [run_random_walk_determined_by_draws].) *)
Theorem run_random_walk_not_reproducible :
  snd (run_random_walk sample_entropy (of_Z 10) (of_Z 20) 100 100 (dec 1 2))
  <>
  snd (run_random_walk other_entropy (of_Z 10) (of_Z 20) 100 100 (dec 1 2)).
Proof.
  intros H. apply (f_equal first_final_position) in H.
  vm_compute in H. discriminate H.
Qed.

End RunRandomWalk.

Section Constructor.

(** C4 as the specification states it (construction with position
    sequences of unequal length raises) does not hold: the constructor
    accepts one [x] and two [y] coordinates. *)
Lemma Particles_init_accepts_unequal_lengths :
  Particles_init (constant_rng pzero) PeriodicSpace_default
                 (Some [of_Z 5]) (Some [of_Z 10; of_Z 10]) (dec 1 2)
  = Ok uneven_particles.
Proof. reflexivity. Qed.

(** C4, amended.  [Particles.__init__] has no particle count and compares
    no lengths: it stores [x] and [y] as given and always succeeds.  With
    arrays of unequal length [move] and [diagnostics] succeed as well;
    the mismatch surfaces only in [positions], where pandas raises
    [ValueError]. *)
Theorem Particles_init_checks_no_shape (r : Np.RandomState)
    (s : PeriodicSpace) (px py : option Np.ndarray) (sl : float) :
  exists p : Particles,
    Particles_init r s px py sl = Ok p /\
    x p = px /\ y p = py /\ steps_done p = 0 /\
    (forall xs ys : Np.ndarray,
        px = Some xs -> py = Some ys -> length xs <> length ys ->
        is_ok (fst (move p)) = true /\
        is_ok (fst (diagnostics p)) = true /\
        fst (positions p) = Raise ValueError).
Proof.
  exists {| rng := r; space := s; x := px; y := py; step_length := sl;
            steps_done := 0 |}.
  split; [reflexivity|]. do 3 (split; [reflexivity|]).
  intros xs ys -> -> Hne. split; [|split].
  - now rewrite (move_arrays _ xs ys) by reflexivity.
  - now rewrite (diagnostics_arrays _ xs ys) by reflexivity.
  - unfold positions, bind, get. cbn [x y fst].
    apply Nat.eqb_neq in Hne. now rewrite Hne.
Qed.

Lemma Particles_init_checks_no_shape_witness :
  exists p : Particles,
    Particles_init (constant_rng pzero) PeriodicSpace_default
                   (Some [of_Z 5]) (Some [of_Z 10; of_Z 10]) (dec 1 2)
    = Ok p /\
    is_ok (fst (move p)) = true /\
    is_ok (fst (diagnostics p)) = true /\
    fst (positions p) = Raise ValueError.
Proof.
  destruct (Particles_init_checks_no_shape (constant_rng pzero)
              PeriodicSpace_default (Some [of_Z 5])
              (Some [of_Z 10; of_Z 10]) (dec 1 2))
    as (p & E & _ & _ & _ & H).
  exists p. split; [exact E|].
  apply (H [of_Z 5] [of_Z 10; of_Z 10]);
    [reflexivity | reflexivity | cbn; lia].
Defined.

(** C10.  Particles constructed without positions hold [None] for [x]
    and [y]; every operation on them raises and none returns a value:
    [move], [center_of_mass], [moment_of_inertia] and [diagnostics] fail
    on the missing array attribute, [positions] fails in pandas.  The
    object is left as it was. *)
Theorem Particles_without_positions_unusable (r : Np.RandomState)
    (s : PeriodicSpace) (sl : float) :
  exists p : Particles,
    Particles_init r s None None sl = Ok p /\
    move p = (Raise AttributeError, p) /\
    center_of_mass p = (Raise AttributeError, p) /\
    moment_of_inertia p = (Raise AttributeError, p) /\
    diagnostics p = (Raise AttributeError, p) /\
    positions p = (Raise ValueError, p).
Proof. eexists. repeat split. Qed.

End Constructor.

(** * Zero step length *)

Section ZeroStep.

(** A value inside the domain is a zero or a positive finite number. *)
Lemma in_range_nonneg_finite (l v : float) :
  in_range v l = true -> is_nonneg_finite v = true.
Proof.
  unfold in_range. intros H. apply andb_true_iff in H. destruct H as [H0 H1].
  destruct v as [sv|[|]| |[|] m e]; try discriminate; try reflexivity.
  destruct l as [sl|[|]| |[|] ml el]; discriminate.
Qed.

Lemma inside_pos_zero (l v : float) : inside l v -> inside l (pos_zero v).
Proof.
  intros [V R]. destruct v as [[|]|[|]| |s m e]; split; try assumption;
    try reflexivity; exact R.
Qed.

Lemma feqb_refl_finite (s : bool) (m : positive) (e : Z) :
  feqb (S754_finite s m e) (S754_finite s m e) = true.
Proof.
  unfold feqb, SFeqb. cbn [SFcompare].
  rewrite Z.compare_refl, Pos.compare_cont_refl. now destruct s.
Qed.

Lemma feqb_pos_zero (l v : float) :
  in_range v l = true -> feqb v (pos_zero v) = true.
Proof.
  intros H. apply in_range_nonneg_finite in H.
  destruct v as [[|]|[|]| |[|] m e]; try discriminate; try reflexivity.
  apply feqb_refl_finite.
Qed.

Lemma feqb_refl_inside (l v : float) :
  in_range v l = true -> feqb v v = true.
Proof.
  intros H. apply in_range_nonneg_finite in H.
  destruct v as [[|]|[|]| |[|] m e]; try discriminate; try reflexivity.
  apply feqb_refl_finite.
Qed.

(** One coordinate: adding [0.0 * draw] and wrapping. *)
Lemma zero_step_coordinate (l s d v : float) :
  float64 l -> inside l v -> is_zero s = true -> is_finite d = true ->
  np_mod (fadd v (fmul s d)) l = pos_zero v.
Proof.
  intros Vl [Vv Rv] Hs Hd.
  destruct s as [ss| | |]; try discriminate.
  assert (Hz : exists t, fmul (S754_zero ss) d = S754_zero t).
  { destruct d as [sd|sd| |sd m e]; try discriminate; eexists; reflexivity. }
  destruct Hz as [t ->].
  pose proof (in_range_nonneg_finite l v Rv) as Nv.
  destruct v as [sv|[|]| |[|] m e]; try discriminate.
  - assert (Hv : exists u, fadd (S754_zero sv) (S754_zero t) = S754_zero u).
    { destruct sv, t; eexists; reflexivity. }
    destruct Hv as [u ->].
    rewrite np_mod_in_range; [reflexivity | reflexivity | assumption |].
    exact Rv.
  - change (fadd (S754_finite false m e) (S754_zero t))
      with (S754_finite false m e).
    now apply np_mod_in_range.
Qed.

Lemma zero_step_array (l s : float) (a d : Np.ndarray) :
  float64 l -> Forall (inside l) a -> is_zero s = true ->
  Forall (fun g => is_finite g = true) d -> length d = length a ->
  map (fun v => np_mod v l) (displaced a s d) = map pos_zero a.
Proof.
  intros Vl Ha Hs Hd. unfold displaced. revert d Hd.
  induction Ha as [|v a Hv Ha IH]; intros [|g d] Hd E;
    try discriminate; cbn; [reflexivity|].
  inversion Hd; subst. f_equal.
  - now apply zero_step_coordinate.
  - apply IH; [assumption|]. now injection E.
Qed.

(** After [k] calls the arrays are the initial ones with any [-0.0]
    replaced by [+0.0]. *)
Lemma repeat_move_zero_step (k : nat) :
  forall (p : Particles) (xs ys : Np.ndarray),
    x p = Some xs -> y p = Some ys ->
    is_zero (step_length p) = true ->
    (forall i, is_finite (Np.gauss (rng p) i) = true) ->
    float64 (length_x (space p)) -> float64 (length_y (space p)) ->
    Forall (inside (length_x (space p))) xs ->
    Forall (inside (length_y (space p))) ys ->
    exists p' : Particles,
      repeat_move k p = (Ok tt, p') /\
      x p' = Some (Nat.iter k (map pos_zero) xs) /\
      y p' = Some (Nat.iter k (map pos_zero) ys) /\
      steps_done p' = steps_done p + Z.of_nat k.
Proof.
  induction k as [|k IH]; intros p xs ys Hx Hy Hs Hg Vx Vy Ix Iy.
  - exists p. cbn. rewrite Z.add_0_r. auto.
  - cbn [repeat_move]. unfold bind. rewrite (move_arrays p xs ys Hx Hy).
    unfold prewrap_x, prewrap_y.
    rewrite (zero_step_array _ _ xs), (zero_step_array _ _ ys);
      try assumption; try apply normal_length; try apply normal_Forall;
      try assumption.
    set (p1 := {| rng := rng_after p xs ys |}).
    destruct (IH p1 (map pos_zero xs) (map pos_zero ys))
      as (p' & R & X & Y & S'); try reflexivity; try assumption.
    + apply Forall_map. eapply Forall_impl; [|exact Ix].
      intros v. apply inside_pos_zero.
    + apply Forall_map. eapply Forall_impl; [|exact Iy].
      intros v. apply inside_pos_zero.
    + exists p'. rewrite R, X, Y, S'. subst p1. cbn [steps_done].
      rewrite <- !Nat.iter_succ_r. repeat split; try reflexivity. lia.
Qed.

Lemma iter_map (f : float -> float) (k : nat) (a : Np.ndarray) :
  Nat.iter k (map f) a = map (Nat.iter k f) a.
Proof.
  induction k as [|k IH].
  - symmetry. apply map_id.
  - rewrite Nat.iter_succ, IH, map_map. apply map_ext. intros v.
    now rewrite Nat.iter_succ.
Qed.

Lemma iter_pos_zero (k : nat) (v : float) :
  Nat.iter k pos_zero v = v \/ Nat.iter k pos_zero v = pos_zero v.
Proof.
  induction k as [|k [IH|IH]]; [now left | |];
    rewrite Nat.iter_succ, IH; auto.
  right. now destruct v as [[|]|[|]| |].
Qed.

Lemma iter_pos_zero_feqb (l : float) (a : Np.ndarray) (k : nat) :
  Forall (inside l) a ->
  Forall2 (fun u v => feqb u v = true) a (Nat.iter k (map pos_zero) a).
Proof.
  intros Ha. rewrite iter_map.
  induction Ha as [|v a [Vv Rv] _ IH]; cbn; constructor; [|exact IH].
  destruct (iter_pos_zero k v) as [-> | ->].
  - now apply (feqb_refl_inside l).
  - now apply (feqb_pos_zero l).
Qed.

(** C8.  With a step length of zero (and a generator whose draws are
    finite, as normal samples are), positions inside the domain stay
    numerically equal to the initial ones through any number [k] of
    calls of [move], and [steps_done] grows by exactly [k]. *)
Theorem zero_step_length_keeps_positions (p : Particles)
    (xs ys : Np.ndarray) (k : nat) :
  x p = Some xs -> y p = Some ys ->
  is_zero (step_length p) = true ->
  (forall i, is_finite (Np.gauss (rng p) i) = true) ->
  float64 (length_x (space p)) -> float64 (length_y (space p)) ->
  Forall (inside (length_x (space p))) xs ->
  Forall (inside (length_y (space p))) ys ->
  exists (p' : Particles) (xs' ys' : Np.ndarray),
    repeat_move k p = (Ok tt, p') /\
    x p' = Some xs' /\ y p' = Some ys' /\
    Forall2 (fun u v => feqb u v = true) xs xs' /\
    Forall2 (fun u v => feqb u v = true) ys ys' /\
    steps_done p' = steps_done p + Z.of_nat k.
Proof.
  intros Hx Hy Hs Hg Vx Vy Ix Iy.
  destruct (repeat_move_zero_step k p xs ys Hx Hy Hs Hg Vx Vy Ix Iy)
    as (p' & R & X & Y & S').
  exists p', (Nat.iter k (map pos_zero) xs), (Nat.iter k (map pos_zero) ys).
  repeat split; try assumption.
  - now apply (iter_pos_zero_feqb (length_x (space p))).
  - now apply (iter_pos_zero_feqb (length_y (space p))).
Qed.

Lemma sample_entropy_finite (i : nat) : is_finite (sample_entropy i) = true.
Proof.
  unfold sample_entropy.
  assert (H : (i mod 7 < 7)%nat) by (apply Nat.mod_upper_bound; lia).
  destruct (i mod 7)%nat as [|[|[|[|[|[|[|n]]]]]]]; try reflexivity; lia.
Qed.

Lemma zero_step_length_keeps_positions_witness :
  exists (p' : Particles) (xs' ys' : Np.ndarray),
    repeat_move 4 resting_particles = (Ok tt, p') /\
    x p' = Some xs' /\ y p' = Some ys' /\
    Forall2 (fun u v => feqb u v = true) [of_Z 5; nzero; dec 99 10] xs' /\
    Forall2 (fun u v => feqb u v = true) [of_Z 10; dec 1 2; pzero] ys' /\
    steps_done p' = 0 + Z.of_nat 4.
Proof.
  apply (zero_step_length_keeps_positions resting_particles
           [of_Z 5; nzero; dec 99 10] [of_Z 10; dec 1 2; pzero] 4);
    try reflexivity.
  - exact sample_entropy_finite.
  - repeat constructor.
  - repeat constructor.
Defined.

End ZeroStep.

(** * Moment of inertia *)

Section Inertia.

(** The sample variance (divisor [n - 1]) is a different number. *)
Lemma var_1_differs :
  Np.var 0 [of_Z 1; of_Z 3] = of_Z 1 /\ Np.var 1 [of_Z 1; of_Z 3] = of_Z 2.
Proof. split; vm_compute; reflexivity. Qed.

Lemma sum_singleton (a : float) : Np.sum [a] = pos_zero a.
Proof.
  unfold Np.sum. cbn [length Np.pairwise_sum Nat.ltb Nat.leb Np.sum_seq
    fold_left]. now rewrite !fadd_pzero_l; destruct a as [[|]|[|]| |].
Qed.

Lemma valid_pos_zero (a : float) :
  valid a = true -> valid (pos_zero a) = true.
Proof. now destruct a as [[|]|[|]| |]. Qed.

Lemma is_finite_pos_zero (a : float) :
  is_finite a = true -> is_finite (pos_zero a) = true.
Proof. now destruct a as [[|]|[|]| |]. Qed.

(** The variance of a single finite value is [+0.0]. *)
Lemma var_singleton (a : float) :
  valid a = true -> is_finite a = true -> Np.var 0 [a] = pzero.
Proof.
  intros Va Fa. unfold Np.var. cbn [length map Nat2Z.inj].
  change (of_Z (Z.of_nat 1)) with one.
  change (of_Z (Z.max (Z.of_nat 1 - 0) 0)) with one.
  rewrite !sum_singleton.
  rewrite (fdiv_one (pos_zero a))
    by (apply valid_pos_zero || apply is_finite_pos_zero; assumption).
  assert (D : is_zero (fsub a (pos_zero a)) = true).
  { destruct a as [[|]|[|]| |s m e]; try discriminate; try reflexivity.
    unfold pos_zero. cbn [is_zero]. now rewrite fsub_diag. }
  destruct (fsub a (pos_zero a)) as [t| | |]; try discriminate.
  rewrite fmul_zero_zero, xorb_nilpotent. reflexivity.
Qed.

(** With the sample convention a single value has no variance: numpy
    divides [0.0] by [max(1 - 1, 0) = 0]. *)
Lemma var_1_singleton (a : float) :
  valid a = true -> is_finite a = true -> Np.var 1 [a] = nan.
Proof.
  intros Va Fa. unfold Np.var. cbn [length map].
  change (of_Z (Z.of_nat 1)) with one.
  change (of_Z (Z.max (Z.of_nat 1 - 1) 0)) with pzero.
  rewrite !sum_singleton.
  rewrite (fdiv_one (pos_zero a))
    by (apply valid_pos_zero || apply is_finite_pos_zero; assumption).
  assert (D : is_zero (fsub a (pos_zero a)) = true).
  { destruct a as [[|]|[|]| |s m e]; try discriminate; try reflexivity.
    unfold pos_zero. cbn [is_zero]. now rewrite fsub_diag. }
  destruct (fsub a (pos_zero a)) as [t| | |]; try discriminate.
  rewrite fmul_zero_zero, xorb_nilpotent. reflexivity.
Qed.

(** C9.  With exactly one particle at a finite position,
    [moment_of_inertia] returns [+0.0] exactly, whatever the step count
    and the position. *)
Theorem single_particle_zero_inertia (p : Particles) (a b : float) :
  x p = Some [a] -> y p = Some [b] ->
  float64 a -> float64 b -> is_finite a = true -> is_finite b = true ->
  moment_of_inertia p = (Ok pzero, p).
Proof.
  intros Hx Hy Va Vb Fa Fb. destruct p as [r sp px py sl sd].
  cbn [x y] in Hx, Hy. subst px py.
  assert (E : moment_of_inertia
                {| rng := r; space := sp; x := Some [a]; y := Some [b];
                   step_length := sl; steps_done := sd |}
              = (Ok (fadd (Np.var 0 [a]) (Np.var 0 [b])),
                 {| rng := r; space := sp; x := Some [a]; y := Some [b];
                    step_length := sl; steps_done := sd |}))
    by reflexivity.
  rewrite E, !var_singleton by assumption. reflexivity.
Qed.

Lemma single_particle_zero_inertia_witness :
  moment_of_inertia lone_particle = (Ok pzero, lone_particle).
Proof.
  apply (single_particle_zero_inertia lone_particle (dec 99 10) (dec 1 3));
    reflexivity.
Defined.

End Inertia.

(** * Further properties of [normalize_positions] *)

Section NormalizeMore.

(** The wrapped value of a non-negative coordinate is never [-0.0]. *)
Lemma np_mod_nonneg_pos_zero (a b : float) :
  valid a = true -> valid b = true ->
  is_nonneg_finite a = true -> is_pos_finite b = true ->
  pos_zero (np_mod a b) = np_mod a b.
Proof.
  intros Va Vb Ha Hb.
  destruct b as [| | |[|] mb eb]; try discriminate.
  destruct a as [sa| | |[|] ma ea]; try discriminate.
  - reflexivity.
  - pose proof (fmod_pos ma ea mb eb Va Vb) as (Vr & Nr & Zr & Lr).
    cbv zeta in *. unfold np_mod.
    destruct (fmod (S754_finite false ma ea) (S754_finite false mb eb))
      as [sr| | |[|] mr er]; try discriminate; reflexivity.
Qed.

Lemma np_mod_zero_divisor (a b : float) :
  is_zero b = true -> np_mod a b = nan.
Proof.
  destruct b as [sb| | |]; try discriminate. intros _.
  destruct a as [sa|sa| |sa ma ea]; reflexivity.
Qed.

Lemma np_mod_self (b : float) :
  is_pos_finite b = true -> np_mod b b = pzero.
Proof.
  destruct b as [| | |[|] mb eb]; try discriminate. intros _.
  unfold np_mod. cbn [fmod]. rewrite Z.min_id, Z.rem_same by lia.
  reflexivity.
Qed.

(** X1.  Coordinates that already lie in the domain are returned
    unchanged (a [-0.0] comes back as [+0.0]): the property the
    notebook's own assertion checks at the centre of the box. *)
Theorem normalize_positions_inside_unchanged (s : PeriodicSpace)
    (xs ys : Np.ndarray) :
  float64 (length_x s) -> float64 (length_y s) ->
  Forall (inside (length_x s)) xs -> Forall (inside (length_y s)) ys ->
  normalize_positions s xs ys = (map pos_zero xs, map pos_zero ys) /\
  Forall2 (fun u v => feqb u v = true) xs (fst (normalize_positions s xs ys))
  /\
  Forall2 (fun u v => feqb u v = true) ys (snd (normalize_positions s xs ys)).
Proof.
  intros Vx Vy Hx Hy.
  assert (E : normalize_positions s xs ys = (map pos_zero xs, map pos_zero ys)).
  { unfold normalize_positions. f_equal; apply map_ext_in; intros v Hv.
    - rewrite Forall_forall in Hx. destruct (Hx v Hv).
      now apply np_mod_in_range.
    - rewrite Forall_forall in Hy. destruct (Hy v Hv).
      now apply np_mod_in_range. }
  rewrite E. cbn [fst snd]. split; [reflexivity|]. split.
  - clear E Hy. induction Hx as [|v l [Vv Rv] _ IH]; cbn; constructor;
      [now apply (feqb_pos_zero (length_x s)) | exact IH].
  - clear E Hx. induction Hy as [|v l [Vv Rv] _ IH]; cbn; constructor;
      [now apply (feqb_pos_zero (length_y s)) | exact IH].
Qed.

Lemma normalize_positions_inside_unchanged_witness :
  normalize_positions PeriodicSpace_default [of_Z 5; nzero] [of_Z 10; dec 1 2]
    = (map pos_zero [of_Z 5; nzero], map pos_zero [of_Z 10; dec 1 2]) /\
  Forall2 (fun u v => feqb u v = true) [of_Z 5; nzero]
    (fst (normalize_positions PeriodicSpace_default [of_Z 5; nzero]
                              [of_Z 10; dec 1 2])) /\
  Forall2 (fun u v => feqb u v = true) [of_Z 10; dec 1 2]
    (snd (normalize_positions PeriodicSpace_default [of_Z 5; nzero]
                              [of_Z 10; dec 1 2])).
Proof.
  apply (normalize_positions_inside_unchanged PeriodicSpace_default
           [of_Z 5; nzero] [of_Z 10; dec 1 2]);
    try reflexivity; repeat constructor.
Defined.

Lemma normalize_positions_nonneg_witness :
  Forall (fun v => in_range v (of_Z 10) = true)
         (fst (normalize_positions PeriodicSpace_default
                 [of_Z 25; dec 99 10] [dyadic 1 100])) /\
  Forall (fun v => in_range v (of_Z 20) = true)
         (snd (normalize_positions PeriodicSpace_default
                 [of_Z 25; dec 99 10] [dyadic 1 100])).
Proof.
  apply (normalize_positions_nonneg PeriodicSpace_default
           [of_Z 25; dec 99 10] [dyadic 1 100]);
    try reflexivity; repeat constructor.
Defined.

Lemma normalize_positions_closed_witness :
  Forall (fun v => float64 v /\ is_nonneg_finite v = true /\
                   fleb v (of_Z 10) = true)
         (fst (normalize_positions PeriodicSpace_default
                 [of_Z (-25); tiny_negative] [dyadic (-1) 100])) /\
  Forall (fun v => float64 v /\ is_nonneg_finite v = true /\
                   fleb v (of_Z 20) = true)
         (snd (normalize_positions PeriodicSpace_default
                 [of_Z (-25); tiny_negative] [dyadic (-1) 100])).
Proof.
  apply (normalize_positions_closed PeriodicSpace_default
           [of_Z (-25); tiny_negative] [dyadic (-1) 100]);
    try reflexivity; repeat constructor.
Defined.

(** X4.  Wrapping is idempotent on non-negative coordinates: wrapping
    the wrapped arrays again returns them as they are. *)
Theorem normalize_positions_idempotent (s : PeriodicSpace)
    (xs ys : Np.ndarray) :
  float64 (length_x s) -> is_pos_finite (length_x s) = true ->
  float64 (length_y s) -> is_pos_finite (length_y s) = true ->
  Forall (fun v => float64 v /\ is_nonneg_finite v = true) xs ->
  Forall (fun v => float64 v /\ is_nonneg_finite v = true) ys ->
  normalize_positions s (fst (normalize_positions s xs ys))
                        (snd (normalize_positions s xs ys))
  = normalize_positions s xs ys.
Proof.
  intros Vx Px Vy Py Hx Hy. unfold normalize_positions. cbn [fst snd].
  rewrite !map_map. f_equal; apply map_ext_in; intros v Hv.
  - rewrite Forall_forall in Hx. destruct (Hx v Hv) as [Vv Nv].
    destruct (np_mod_nonneg v (length_x s) Vv Vx Nv Px) as (V & _ & R).
    rewrite np_mod_in_range by assumption.
    now apply np_mod_nonneg_pos_zero.
  - rewrite Forall_forall in Hy. destruct (Hy v Hv) as [Vv Nv].
    destruct (np_mod_nonneg v (length_y s) Vv Vy Nv Py) as (V & _ & R).
    rewrite np_mod_in_range by assumption.
    now apply np_mod_nonneg_pos_zero.
Qed.

Lemma normalize_positions_idempotent_witness :
  normalize_positions PeriodicSpace_default
    (fst (normalize_positions PeriodicSpace_default
            [of_Z 25; dec 99 10] [dyadic 1 100]))
    (snd (normalize_positions PeriodicSpace_default
            [of_Z 25; dec 99 10] [dyadic 1 100]))
  = normalize_positions PeriodicSpace_default
      [of_Z 25; dec 99 10] [dyadic 1 100].
Proof.
  apply (normalize_positions_idempotent PeriodicSpace_default
           [of_Z 25; dec 99 10] [dyadic 1 100]);
    try reflexivity; repeat constructor.
Defined.

(** X5.  An extent of zero raises nothing: every coordinate along that
    axis, whatever it was, becomes NaN. *)
Theorem normalize_positions_zero_extent (s : PeriodicSpace)
    (xs ys : Np.ndarray) :
  (is_zero (length_x s) = true ->
   fst (normalize_positions s xs ys) = repeat nan (length xs)) /\
  (is_zero (length_y s) = true ->
   snd (normalize_positions s xs ys) = repeat nan (length ys)).
Proof.
  unfold normalize_positions. cbn [fst snd]. split; intros Hz.
  - induction xs as [|v l IH]; cbn; [reflexivity|].
    now rewrite IH, np_mod_zero_divisor.
  - induction ys as [|v l IH]; cbn; [reflexivity|].
    now rewrite IH, np_mod_zero_divisor.
Qed.

Lemma normalize_positions_zero_extent_witness :
  fst (normalize_positions (PeriodicSpace_init pzero nzero)
         [of_Z 5; nan] [of_Z (-3)]) = repeat nan 2 /\
  snd (normalize_positions (PeriodicSpace_init pzero nzero)
         [of_Z 5; nan] [of_Z (-3)]) = repeat nan 1.
Proof.
  split;
    apply (normalize_positions_zero_extent (PeriodicSpace_init pzero nzero)
             [of_Z 5; nan] [of_Z (-3)]); reflexivity.
Defined.

(** X6.  The upper boundary is identified with the lower one: a
    coordinate equal to the extent is wrapped to [+0.0]. *)
Theorem normalize_positions_upper_boundary (s : PeriodicSpace) :
  is_pos_finite (length_x s) = true -> is_pos_finite (length_y s) = true ->
  normalize_positions s [length_x s] [length_y s] = ([pzero], [pzero]).
Proof.
  intros Px Py. unfold normalize_positions. cbn [map].
  now rewrite !np_mod_self.
Qed.

Lemma normalize_positions_upper_boundary_witness :
  normalize_positions PeriodicSpace_default [of_Z 10] [of_Z 20]
  = ([pzero], [pzero]).
Proof.
  apply (normalize_positions_upper_boundary PeriodicSpace_default);
    reflexivity.
Defined.

End NormalizeMore.
(** * Wrapping is the exact remainder *)

Section ExactRemainder.

(** The C remainder of two positive floats is the remainder of their
    values, without rounding. *)
Lemma fmod_ulps (ma : positive) (ea : Z) (mb : positive) (eb : Z) :
  valid (S754_finite false ma ea) = true ->
  valid (S754_finite false mb eb) = true ->
  ulps (fmod (S754_finite false ma ea) (S754_finite false mb eb))
  = ulps (S754_finite false ma ea) mod ulps (S754_finite false mb eb).
Proof.
  intros Va Vb. apply valid_finite in Va, Vb.
  destruct Va as [Ca Ba], Vb as [Cb Bb].
  pose proof (canonical_digits _ _ Ca) as (La & Da & _).
  pose proof (canonical_digits _ _ Cb) as (Lb & Db & _).
  pose proof (digits2_pos_bounds ma) as [_ Ha].
  pose proof (digits2_pos_bounds mb) as [_ Hb].
  assert (Ha53 : Z.pos ma < 2 ^ 53).
  { eapply Z.lt_le_trans; [exact Ha|]. apply Z.pow_le_mono_r; lia. }
  assert (Hb53 : Z.pos mb < 2 ^ 53).
  { eapply Z.lt_le_trans; [exact Hb|]. apply Z.pow_le_mono_r; lia. }
  cbn [fmod ulps cond_Zopp]. set (e := Z.min ea eb).
  destruct (shl_align_value ma ea e ltac:(subst e; lia)) as [HA _].
  destruct (shl_align_value mb eb e ltac:(subst e; lia)) as [HB _].
  set (A := Z.pos (fst (shl_align ma ea e))) in *.
  set (B := Z.pos (fst (shl_align mb eb e))) in *.
  assert (HApos : 0 < A) by (subst A; lia).
  assert (HBpos : 0 < B) by (subst B; lia).
  assert (Le : -1074 <= e <= eb) by (subst e; lia).
  assert (U : (Z.pos ma * 2 ^ (ea + 1074)) mod (Z.pos mb * 2 ^ (eb + 1074))
              = A mod B * 2 ^ (e + 1074)).
  { assert (P : 0 < 2 ^ (e + 1074)) by (apply Z.pow_pos_nonneg; lia).
    rewrite <- Z.mul_mod_distr_r by lia.
    rewrite HA, HB, <- !Z.mul_assoc, <- !Z.pow_add_r by lia.
    replace (ea - e + (e + 1074)) with (ea + 1074) by lia.
    replace (eb - e + (e + 1074)) with (eb + 1074) by lia.
    reflexivity. }
  rewrite U. rewrite Z.rem_mod_nonneg by lia.
  pose proof (Z.mod_pos_bound A B HBpos) as [R0 RB].
  pose proof (Z.mod_le A B ltac:(lia) HBpos) as RA.
  destruct (A mod B) as [|r|r] eqn:ER; [reflexivity | | lia].
  cbn [binary_normalize].
  assert (Hr53 : Z.pos r < 2 ^ 53).
  { destruct (Z.le_ge_cases ea eb) as [Hle|Hle].
    - assert (e = ea) by (subst e; lia).
      replace (ea - e) with 0 in HA by lia. rewrite Z.pow_0_r in HA. lia.
    - assert (e = eb) by (subst e; lia).
      replace (eb - e) with 0 in HB by lia. rewrite Z.pow_0_r in HB. lia. }
  assert (Dr : Z.pos (digits2_pos r) <= 53).
  { pose proof (digits2_pos_bounds r) as [Lo _].
    assert (Z.pos (digits2_pos r) - 1 < 53)
      by (apply (Z.pow_lt_mono_r_iff 2); lia).
    lia. }
  pose proof (binary_round_exact false r e) as Hx. cbv zeta in Hx.
  assert (Hfe : fexp64 (Z.pos (digits2_pos r) + e) <= e)
    by (rewrite fexp64_eq; lia).
  destruct (Hx Hfe) as (m' & Hm' & Cm' & Hround). clear Hx.
  set (fe := fexp64 (Z.pos (digits2_pos r) + e)) in *.
  assert (Lfe : -1074 <= fe) by (subst fe; rewrite fexp64_eq; lia).
  assert (Hfe971 : fe <= 971) by lia.
  apply Z.leb_le in Hfe971. rewrite Hfe971 in Hround. rewrite Hround.
  cbn [ulps cond_Zopp]. rewrite Hm', <- Z.mul_assoc, <- Z.pow_add_r by lia.
  replace (e - fe + (fe + 1074)) with (e + 1074) by lia. reflexivity.
Qed.

Lemma np_mod_ulps (a b : float) :
  valid a = true -> valid b = true ->
  is_nonneg_finite a = true -> is_pos_finite b = true ->
  ulps (np_mod a b) = ulps a mod ulps b.
Proof.
  intros Va Vb Ha Hb.
  destruct b as [| | |[|] mb eb]; try discriminate.
  destruct a as [sa| | |[|] ma ea]; try discriminate.
  - cbn [np_mod fmod is_zero is_nan is_neg ulps]. now rewrite Zmod_0_l.
  - pose proof (fmod_pos ma ea mb eb Va Vb) as (Vr & Nr & Zr & Lr).
    pose proof (fmod_ulps ma ea mb eb Va Vb) as Ur.
    cbv zeta in *. unfold np_mod.
    set (r := fmod (S754_finite false ma ea) (S754_finite false mb eb)) in *.
    cbn [is_zero]. rewrite <- Ur.
    destruct r as [sr| | |[|] mr er] eqn:Er; try discriminate; reflexivity.
Qed.

(** X7.  Wrapping non-negative coordinates is exact: counted in units
    of [2^-1074], every wrapped coordinate is the mathematical remainder
    of the coordinate by the extent; no rounding takes place. *)
Theorem normalize_positions_exact_remainder (s : PeriodicSpace)
    (xs ys : Np.ndarray) :
  float64 (length_x s) -> is_pos_finite (length_x s) = true ->
  float64 (length_y s) -> is_pos_finite (length_y s) = true ->
  Forall (fun v => float64 v /\ is_nonneg_finite v = true) xs ->
  Forall (fun v => float64 v /\ is_nonneg_finite v = true) ys ->
  map ulps (fst (normalize_positions s xs ys))
  = map (fun v => ulps v mod ulps (length_x s)) xs /\
  map ulps (snd (normalize_positions s xs ys))
  = map (fun v => ulps v mod ulps (length_y s)) ys.
Proof.
  intros Vx Px Vy Py Hx Hy. cbn [normalize_positions fst snd].
  rewrite !map_map. split; apply map_ext_in; intros v Hv.
  - rewrite Forall_forall in Hx. destruct (Hx v Hv).
    now apply np_mod_ulps.
  - rewrite Forall_forall in Hy. destruct (Hy v Hv).
    now apply np_mod_ulps.
Qed.

Lemma normalize_positions_exact_remainder_witness :
  map ulps (fst (normalize_positions PeriodicSpace_default
                   [of_Z 25; dec 99 10] [dyadic 1 100]))
  = map (fun v => ulps v mod ulps (of_Z 10)) [of_Z 25; dec 99 10] /\
  map ulps (snd (normalize_positions PeriodicSpace_default
                   [of_Z 25; dec 99 10] [dyadic 1 100]))
  = map (fun v => ulps v mod ulps (of_Z 20)) [dyadic 1 100].
Proof.
  apply (normalize_positions_exact_remainder PeriodicSpace_default
           [of_Z 25; dec 99 10] [dyadic 1 100]);
    try reflexivity; repeat constructor.
Defined.

End ExactRemainder.
(** * Further properties of the particle methods *)

Section ParticlesMore.

(** X8.  The four queries never change the object, whether they return
    or raise. *)
Theorem queries_leave_particles_unchanged (p : Particles) :
  snd (center_of_mass p) = p /\ snd (moment_of_inertia p) = p /\
  snd (diagnostics p) = p /\ snd (positions p) = p.
Proof.
  destruct p as [r sp [xs|] [ys|] sl sd]; repeat split; try reflexivity.
  unfold positions, bind, get. cbn [x y].
  destruct (length xs =? length ys)%nat; reflexivity.
Qed.

(** X9.  A failing [move] is not undone.  Without an [x] array nothing
    has happened when the error is raised; with an [x] array but no [y]
    array the error is raised after [x] has been displaced (and not
    wrapped) and the generator has moved on, and [steps_done] is not
    incremented. *)
Theorem move_failure_keeps_partial_update (p : Particles) :
  (x p = None -> move p = (Raise AttributeError, p)) /\
  (forall xs, x p = Some xs -> y p = None ->
     move p =
     (Raise AttributeError,
      {| rng := snd (Np.normal (rng p) (length xs));
         space := space p;
         x := Some (prewrap_x p xs);
         y := None;
         step_length := step_length p;
         steps_done := steps_done p |})).
Proof.
  destruct p as [r sp px py sl sd]. cbn [x y]. split.
  - intros ->. reflexivity.
  - intros xs -> ->. reflexivity.
Qed.

Lemma move_failure_keeps_partial_update_witness :
  fst (move half_built_particles) = Raise AttributeError /\
  x (snd (move half_built_particles)) = Some [dec 104 10] /\
  Np.drawn (rng (snd (move half_built_particles))) = 1%nat /\
  steps_done (snd (move half_built_particles)) = 3.
Proof.
  destruct (move_failure_keeps_partial_update half_built_particles)
    as [_ H].
  rewrite (H [dec 99 10] eq_refl eq_refl).
  repeat split; vm_compute; reflexivity.
Defined.

(** X10.  Step counting: [k] calls of [move] on arrays all succeed, add
    exactly [k] to [steps_done], keep the lengths of both arrays, the
    domain and the step length, and take exactly
    [k * (len(x) + len(y))] values from the generator. *)
Theorem repeat_move_counts (k : nat) :
  forall (p : Particles) (xs ys : Np.ndarray),
    x p = Some xs -> y p = Some ys ->
    exists (p' : Particles) (xs' ys' : Np.ndarray),
      repeat_move k p = (Ok tt, p') /\
      x p' = Some xs' /\ y p' = Some ys' /\
      length xs' = length xs /\ length ys' = length ys /\
      steps_done p' = steps_done p + Z.of_nat k /\
      Np.drawn (rng p') =
        (Np.drawn (rng p) + k * (length xs + length ys))%nat /\
      Np.gauss (rng p') = Np.gauss (rng p) /\
      space p' = space p /\ step_length p' = step_length p.
Proof.
  induction k as [|k IH]; intros p xs ys Hx Hy.
  - exists p, xs, ys. cbn. rewrite Z.add_0_r, Nat.add_0_r. auto 12.
  - cbn [repeat_move]. unfold bind. rewrite (move_arrays p xs ys Hx Hy).
    set (p1 := {| rng := rng_after p xs ys |}).
    destruct (IH p1 _ _ eq_refl eq_refl)
      as (p' & xs' & ys' & R & X & Y & Lx & Ly & S' & D & G & Sp & Sl).
    rewrite length_map, prewrap_x_length in Lx, D.
    rewrite length_map, prewrap_y_length in Ly, D.
    exists p', xs', ys'. rewrite R, S', D, G, Sp, Sl. subst p1.
    cbn [rng space step_length steps_done rng_after Np.normal snd
         Np.drawn Np.gauss].
    repeat split; auto; lia.
Qed.

Lemma repeat_move_counts_witness :
  exists (p' : Particles) (xs' ys' : Np.ndarray),
    repeat_move 3 uneven_particles = (Ok tt, p') /\
    x p' = Some xs' /\ y p' = Some ys' /\
    length xs' = 1%nat /\ length ys' = 2%nat /\
    steps_done p' = 0 + Z.of_nat 3 /\
    Np.drawn (rng p') = (0 + 3 * (1 + 2))%nat /\
    Np.gauss (rng p') = Np.gauss (rng uneven_particles) /\
    space p' = space uneven_particles /\
    step_length p' = step_length uneven_particles.
Proof.
  apply (repeat_move_counts 3 uneven_particles [of_Z 5] [of_Z 10; of_Z 10]);
    reflexivity.
Defined.

(** X11.  The centre of mass of a single particle at a finite position
    is that position (with [+0.0] for [-0.0]): the sum and the division
    by one are exact. *)
Theorem center_of_mass_single_particle (p : Particles) (a b : float) :
  x p = Some [a] -> y p = Some [b] ->
  float64 a -> float64 b -> is_finite a = true -> is_finite b = true ->
  center_of_mass p = (Ok (pos_zero a, pos_zero b), p).
Proof.
  intros Hx Hy Va Vb Fa Fb. destruct p as [r sp px py sl sd].
  cbn [x y] in Hx, Hy. subst px py.
  assert (M : forall v, valid v = true -> is_finite v = true ->
                        Np.mean [v] = pos_zero v).
  { intros v Vv Fv. unfold Np.mean. rewrite sum_singleton.
    change (of_Z (Z.of_nat (length [v]))) with one.
    apply fdiv_one; [now apply valid_pos_zero | now apply is_finite_pos_zero]. }
  assert (E : center_of_mass
                {| rng := r; space := sp; x := Some [a]; y := Some [b];
                   step_length := sl; steps_done := sd |}
              = (Ok (Np.mean [a], Np.mean [b]),
                 {| rng := r; space := sp; x := Some [a]; y := Some [b];
                    step_length := sl; steps_done := sd |}))
    by reflexivity.
  now rewrite E, !M.
Qed.

Lemma center_of_mass_single_particle_witness :
  center_of_mass lone_particle
  = (Ok (pos_zero (dec 99 10), pos_zero (dec 1 3)), lone_particle).
Proof.
  apply (center_of_mass_single_particle lone_particle (dec 99 10) (dec 1 3));
    reflexivity.
Defined.

(** X12.  An ensemble of no particles raises nothing: its centre of
    mass and its moment of inertia are NaN, its frame of positions is
    empty, and [move] only counts the step, drawing nothing. *)
Theorem empty_ensemble_yields_nan (p : Particles) :
  x p = Some [] -> y p = Some [] ->
  center_of_mass p = (Ok (nan, nan), p) /\
  moment_of_inertia p = (Ok nan, p) /\
  positions p = (Ok [], p) /\
  move p = (Ok tt, set_steps_done (steps_done p + 1) p).
Proof.
  destruct p as [[g d] sp px py sl sd]. cbn [x y]. intros -> ->.
  repeat split. unfold move, bind, array_of, get, ret, draw_normal, modify.
  cbn. unfold set_steps_done, set_y, set_x, set_rng. cbn.
  now rewrite !Nat.add_0_r.
Qed.

Lemma empty_ensemble_yields_nan_witness :
  center_of_mass empty_particles = (Ok (nan, nan), empty_particles) /\
  moment_of_inertia empty_particles = (Ok nan, empty_particles) /\
  positions empty_particles = (Ok [], empty_particles) /\
  move empty_particles = (Ok tt, set_steps_done (0 + 1) empty_particles).
Proof.
  apply (empty_ensemble_yields_nan empty_particles); reflexivity.
Defined.

End ParticlesMore.
(** * Signs and bounds that the methods keep *)

Section SignsAndBounds.

Lemma binary_round_aux_sign_clear (m e : Z) (l : location) :
  sign_clear (binary_round_aux prec emax false m e l) = true.
Proof.
  unfold binary_round_aux.
  destruct (shr_fexp prec emax m e l) as [mrs' e'].
  destruct (shr_fexp prec emax _ e' loc_Exact) as [mrs'' e''].
  destruct (shr_m mrs''); try reflexivity.
  destruct (e'' <=? emax - prec); reflexivity.
Qed.

Lemma binary_round_sign_clear (m : positive) (e : Z) :
  sign_clear (binary_round prec emax false m e) = true.
Proof.
  unfold binary_round. destruct (shl_align m e _) as [mz ez].
  apply binary_round_aux_sign_clear.
Qed.

Lemma of_Z_sign_clear (n : Z) : 0 <= n -> sign_clear (of_Z n) = true.
Proof.
  destruct n as [|q|q]; intros H; try lia; [reflexivity|].
  apply binary_round_sign_clear.
Qed.

Lemma fadd_sign_clear (a b : float) :
  sign_clear a = true -> sign_clear b = true -> sign_clear (fadd a b) = true.
Proof.
  destruct a as [[|]|[|]| |[|] ma ea], b as [[|]|[|]| |[|] mb eb];
    intros Ha Hb; try discriminate; try reflexivity.
  unfold fadd. cbn [SFadd cond_Zopp Z.add binary_normalize].
  apply binary_round_sign_clear.
Qed.

Lemma fdiv_sign_clear (a b : float) :
  sign_clear a = true -> sign_clear b = true -> sign_clear (fdiv a b) = true.
Proof.
  destruct a as [[|]|[|]| |[|] ma ea], b as [[|]|[|]| |[|] mb eb];
    intros Ha Hb; try discriminate; try reflexivity.
  unfold fdiv. cbn [SFdiv xorb].
  destruct (SFdiv_core_binary prec emax (Z.pos ma) ea (Z.pos mb) eb)
    as [[mz ez] lz].
  apply binary_round_aux_sign_clear.
Qed.

(** A square is never negative. *)
Lemma fmul_square_sign_clear (d : float) : sign_clear (fmul d d) = true.
Proof.
  destruct d as [[|]|[|]| |s m e]; try reflexivity.
  unfold fmul. cbn [SFmul]. rewrite xorb_nilpotent.
  apply binary_round_aux_sign_clear.
Qed.

Lemma Forall_firstn_keep {A : Type} (P : A -> Prop) (n : nat) (l : list A) :
  Forall P l -> Forall P (firstn n l).
Proof.
  revert l. induction n as [|n IH]; intros l H; cbn; [constructor|].
  destruct H; constructor; auto.
Qed.

Lemma Forall_skipn_keep {A : Type} (P : A -> Prop) (n : nat) (l : list A) :
  Forall P l -> Forall P (skipn n l).
Proof.
  revert l. induction n as [|n IH]; intros l H; cbn; [assumption|].
  destruct H; [constructor | auto].
Qed.

Lemma map2_fadd_sign_clear (a b : Np.ndarray) :
  Forall (fun v => sign_clear v = true) a ->
  Forall (fun v => sign_clear v = true) b ->
  Forall (fun v => sign_clear v = true) (Np.map2 fadd a b).
Proof.
  intros Ha. revert b. induction Ha as [|u a Hu Ha IH]; intros b Hb;
    [constructor|].
  destruct Hb as [|v b Hv Hb]; cbn; constructor;
    [now apply fadd_sign_clear | now apply IH].
Qed.

Lemma sum_seq_sign_clear (a : Np.ndarray) :
  forall init, sign_clear init = true ->
    Forall (fun v => sign_clear v = true) a ->
    sign_clear (Np.sum_seq init a) = true.
Proof.
  unfold Np.sum_seq. induction a as [|v a IH]; intros init Hi Ha; cbn;
    [assumption|].
  inversion Ha; subst. apply IH; [now apply fadd_sign_clear | assumption].
Qed.

Lemma lanes8_sign_clear (blocks : nat) :
  forall r a,
    Forall (fun v => sign_clear v = true) r ->
    Forall (fun v => sign_clear v = true) a ->
    Forall (fun v => sign_clear v = true) (fst (Np.lanes8 blocks r a)) /\
    Forall (fun v => sign_clear v = true) (snd (Np.lanes8 blocks r a)).
Proof.
  induction blocks as [|k IH]; intros r a Hr Ha; cbn [Np.lanes8];
    [split; assumption|].
  apply IH.
  - apply map2_fadd_sign_clear; [assumption | now apply Forall_firstn_keep].
  - now apply Forall_skipn_keep.
Qed.

Lemma sum_block_sign_clear (a : Np.ndarray) :
  Forall (fun v => sign_clear v = true) a ->
  sign_clear (Np.sum_block a) = true.
Proof.
  intros Ha. unfold Np.sum_block.
  destruct (lanes8_sign_clear (length a / 8 - 1) (firstn 8 a) (skipn 8 a))
    as [Hr Hrest];
    [now apply Forall_firstn_keep | now apply Forall_skipn_keep |].
  destruct (Np.lanes8 _ _ _) as [r rest]. cbn [fst snd] in Hr, Hrest.
  do 8 (destruct r as [|? r]; [reflexivity|]).
  destruct r; [|reflexivity].
  repeat match goal with
         | H : Forall _ (_ :: _) |- _ => inversion H; clear H; subst
         end.
  apply sum_seq_sign_clear; [|assumption].
  repeat apply fadd_sign_clear; assumption.
Qed.

Lemma pairwise_sum_sign_clear (fuel : nat) :
  forall a, Forall (fun v => sign_clear v = true) a ->
            sign_clear (Np.pairwise_sum fuel a) = true.
Proof.
  induction fuel as [|fuel IH]; intros a Ha; cbn [Np.pairwise_sum];
    destruct (length a <? 8)%nat;
    try (now apply sum_seq_sign_clear);
    destruct (length a <=? 128)%nat;
    try (now apply sum_block_sign_clear).
  apply fadd_sign_clear; apply IH;
    [now apply Forall_firstn_keep | now apply Forall_skipn_keep].
Qed.

Lemma sum_sign_clear (a : Np.ndarray) :
  Forall (fun v => sign_clear v = true) a -> sign_clear (Np.sum a) = true.
Proof.
  intros Ha. unfold Np.sum. apply fadd_sign_clear; [reflexivity|].
  now apply pairwise_sum_sign_clear.
Qed.

Lemma var_sign_clear (a : Np.ndarray) : sign_clear (Np.var 0 a) = true.
Proof.
  unfold Np.var. apply fdiv_sign_clear.
  - apply sum_sign_clear. rewrite map_map. apply Forall_map, Forall_forall.
    intros v _. apply fmul_square_sign_clear.
  - apply of_Z_sign_clear. lia.
Qed.

Lemma sign_clear_not_negative (v : float) :
  sign_clear v = true -> fltb v pzero = false.
Proof.
  destruct v as [[|]|[|]| |[|] m e]; intros H; try discriminate;
    reflexivity.
Qed.

(** X13.  The moment of inertia is never negative: for every pair of
    arrays, whatever they hold, the value returned is NaN or has a clear
    sign bit (it is not below zero and not [-0.0]). *)
Theorem moment_of_inertia_never_negative (r : Np.RandomState)
    (s : PeriodicSpace) (xs ys : Np.ndarray) (sl : float) (n : Z) :
  let p := {| rng := r; space := s; x := Some xs; y := Some ys;
              step_length := sl; steps_done := n |} in
  exists v : float,
    moment_of_inertia p = (Ok v, p) /\
    sign_clear v = true /\ fltb v pzero = false.
Proof.
  intros p. exists (fadd (Np.var 0 xs) (Np.var 0 ys)).
  split; [reflexivity|].
  assert (H : sign_clear (fadd (Np.var 0 xs) (Np.var 0 ys)) = true)
    by (apply fadd_sign_clear; apply var_sign_clear).
  split; [exact H | now apply sign_clear_not_negative].
Qed.

(** Wrapping any float64 by a positive finite extent gives a coordinate
    of the box, or NaN. *)
Lemma np_mod_boxed (a b : float) :
  valid a = true -> valid b = true -> is_pos_finite b = true ->
  boxed_or_nan b (np_mod a b) = true.
Proof.
  intros Va Vb Pb. unfold boxed_or_nan.
  destruct a as [sa|sa| |sa ma ea] eqn:Ea.
  - destruct (np_mod_closed_range (S754_zero sa) b Va Vb eq_refl Pb)
      as (V & N & L). now rewrite V, N, L, orb_true_r.
  - destruct b as [| | |[|] mb eb]; try discriminate. reflexivity.
  - destruct b as [| | |[|] mb eb]; try discriminate. reflexivity.
  - destruct (np_mod_closed_range (S754_finite sa ma ea) b Va Vb eq_refl Pb)
      as (V & N & L). now rewrite V, N, L, orb_true_r.
Qed.

Lemma boxed_valid (l v : float) : boxed_or_nan l v = true -> valid v = true.
Proof. unfold boxed_or_nan. intros H. now apply andb_true_iff in H. Qed.

(** One call of [move] on float64 data puts every coordinate in the
    box. *)
Lemma move_boxed (p : Particles) (xs ys : Np.ndarray) :
  Forall float64 xs -> Forall float64 ys ->
  float64 (step_length p) -> (forall i, float64 (Np.gauss (rng p) i)) ->
  float64 (length_x (space p)) -> is_pos_finite (length_x (space p)) = true ->
  float64 (length_y (space p)) -> is_pos_finite (length_y (space p)) = true ->
  Forall (fun v => boxed_or_nan (length_x (space p)) v = true)
         (map (fun v => np_mod v (length_x (space p))) (prewrap_x p xs)) /\
  Forall (fun v => boxed_or_nan (length_y (space p)) v = true)
         (map (fun v => np_mod v (length_y (space p))) (prewrap_y p xs ys)).
Proof.
  intros Vxs Vys Vs Vg Vlx Plx Vly Ply.
  assert (Wx : Forall (fun v => valid v = true) (prewrap_x p xs)).
  { apply displaced_valid; try assumption. apply normal_Forall, Vg. }
  assert (Wy : Forall (fun v => valid v = true) (prewrap_y p xs ys)).
  { apply displaced_valid; try assumption. apply normal_Forall.
    intros i. rewrite normal_gauss. apply Vg. }
  split; apply Forall_map.
  - eapply Forall_impl; [|exact Wx]. intros v Vv. now apply np_mod_boxed.
  - eapply Forall_impl; [|exact Wy]. intros v Vv. now apply np_mod_boxed.
Qed.

(** One or more calls of [move] on float64 data: the lengths stay and
    every coordinate is in the box. *)
Lemma moves_boxed (k : nat) :
  forall (p : Particles) (xs ys : Np.ndarray),
    x p = Some xs -> y p = Some ys ->
    Forall float64 xs -> Forall float64 ys ->
    float64 (step_length p) -> (forall i, float64 (Np.gauss (rng p) i)) ->
    float64 (length_x (space p)) ->
    is_pos_finite (length_x (space p)) = true ->
    float64 (length_y (space p)) ->
    is_pos_finite (length_y (space p)) = true ->
    exists (p' : Particles) (xs' ys' : Np.ndarray),
      repeat_move (S k) p = (Ok tt, p') /\
      x p' = Some xs' /\ y p' = Some ys' /\
      length xs' = length xs /\ length ys' = length ys /\
      Forall (fun v => boxed_or_nan (length_x (space p)) v = true) xs' /\
      Forall (fun v => boxed_or_nan (length_y (space p)) v = true) ys'.
Proof.
  induction k as [|k IH]; intros p xs ys Hx Hy Vxs Vys Vs Vg Vlx Plx Vly Ply;
    destruct (move_boxed p xs ys Vxs Vys Vs Vg Vlx Plx Vly Ply) as [Bx By];
    change (repeat_move (S ?n)) with (bind move (fun _ => repeat_move n));
    unfold bind at 1; rewrite (move_arrays p xs ys Hx Hy).
  - cbn [repeat_move ret]. eexists _, _, _.
    do 3 (split; [reflexivity|]).
    rewrite !length_map, prewrap_x_length, prewrap_y_length. auto.
  - set (p1 := {| rng := rng_after p xs ys |}) in *.
    destruct (IH p1 _ _ eq_refl eq_refl)
      as (p' & xs' & ys' & R & X & Y & Lx & Ly & Bx' & By'); try assumption.
    + eapply Forall_impl; [|exact Bx]. intros v. apply boxed_valid.
    + eapply Forall_impl; [|exact By]. intros v. apply boxed_valid.
    + rewrite length_map, prewrap_x_length in Lx.
      rewrite length_map, prewrap_y_length in Ly.
      exists p', xs', ys'. rewrite R. auto 10.
Qed.

(** X14.  The walk never leaves the box: after one or more calls of
    [move] on float64 data, in a domain with positive finite extents,
    every coordinate is a float64 in [[0, length_x]] (respectively
    [[0, length_y]]) or NaN, whatever the step length and the draws. *)
Theorem repeat_move_stays_in_box (k : nat) (p : Particles)
    (xs ys : Np.ndarray) :
  x p = Some xs -> y p = Some ys ->
  Forall float64 xs -> Forall float64 ys ->
  float64 (step_length p) -> (forall i, float64 (Np.gauss (rng p) i)) ->
  float64 (length_x (space p)) ->
  is_pos_finite (length_x (space p)) = true ->
  float64 (length_y (space p)) ->
  is_pos_finite (length_y (space p)) = true ->
  exists (p' : Particles) (xs' ys' : Np.ndarray),
    repeat_move (S k) p = (Ok tt, p') /\
    x p' = Some xs' /\ y p' = Some ys' /\
    Forall (fun v => boxed_or_nan (length_x (space p)) v = true) xs' /\
    Forall (fun v => boxed_or_nan (length_y (space p)) v = true) ys'.
Proof.
  intros Hx Hy Vxs Vys Vs Vg Vlx Plx Vly Ply.
  destruct (moves_boxed k p xs ys Hx Hy Vxs Vys Vs Vg Vlx Plx Vly Ply)
    as (p' & xs' & ys' & R & X & Y & _ & _ & Bx & By).
  exists p', xs', ys'. auto.
Qed.

Lemma repeat_move_stays_in_box_witness :
  exists (p' : Particles) (xs' ys' : Np.ndarray),
    repeat_move 3 huge_step_particles = (Ok tt, p') /\
    x p' = Some xs' /\ y p' = Some ys' /\
    Forall (fun v => boxed_or_nan (of_Z 10) v = true) xs' /\
    Forall (fun v => boxed_or_nan (of_Z 20) v = true) ys'.
Proof.
  apply (repeat_move_stays_in_box 2 huge_step_particles [of_Z 5] [of_Z 10]);
    try reflexivity; repeat constructor.
Defined.

End SignsAndBounds.
(** * Products with one and quotients *)

Section OneAndQuotients.

(** Shifting out [k] zero bits is exact: no round or sticky bit is
    set. *)
Lemma shr_exact (k m : positive) :
  iter_pos shr_1 k
    {| shr_m := Z.pos (Pos.iter xO m k); shr_r := false; shr_s := false |}
  = {| shr_m := Z.pos m; shr_r := false; shr_s := false |}.
Proof.
  rewrite iter_pos_eq. revert m.
  induction k as [|k IH] using Pos.peano_ind; intros m.
  - reflexivity.
  - replace (Pos.iter xO m (Pos.succ k)) with (xO (Pos.iter xO m k))
      by (symmetry; apply Pos.iter_succ).
    rewrite Pos.iter_succ_r. cbn [shr_1 orb]. apply IH.
Qed.

(** Rounding a canonical mantissa that was shifted left by 52 digits. *)
Lemma binary_round_aux_shifted (s : bool) (m : positive) (e : Z) :
  fexp64 (Z.pos (digits2_pos m) + e) = e ->
  binary_round_aux prec emax s (Z.pos (Pos.iter xO m 52)) (-52 + e)
                   loc_Exact =
  if e <=? 971 then S754_finite s m e else S754_infinity s.
Proof.
  intros H. unfold binary_round_aux, shr_fexp.
  assert (H1 : fexp prec emax (Zdigits2 (Z.pos (Pos.iter xO m 52))
                               + (-52 + e)) - (-52 + e) = 52).
  { cbn [Zdigits2].
    rewrite (digits2_pos_shift m 52 (Pos.iter xO m 52))
      by (try apply iter_xO_value; lia).
    replace (Z.pos (digits2_pos m) + 52 + (-52 + e))
      with (Z.pos (digits2_pos m) + e) by lia.
    unfold fexp64 in H. rewrite H. lia. }
  rewrite H1. cbn [shr shr_record_of_loc]. rewrite shr_exact.
  cbn [shr_m shr_r shr_s loc_of_shr_record round_nearest_even Zdigits2].
  replace (-52 + e + 52) with e by lia.
  unfold fexp64 in H. rewrite H, Z.sub_diag. reflexivity.
Qed.

(** [1.0 * a] is [a]. *)
Lemma fmul_one_l (a : float) : valid a = true -> fmul one a = a.
Proof.
  intros Va. destruct a as [s|s| |s m e]; try reflexivity.
  apply valid_finite in Va. destruct Va as [Ca Ba].
  rewrite one_eq. unfold fmul. cbn [SFmul xorb].
  change (Z.pos (4503599627370496 * m)) with (Z.pos (Pos.iter xO m 52)).
  rewrite binary_round_aux_shifted by assumption.
  apply Z.leb_le in Ba. now rewrite Ba.
Qed.

(** Rounding a zero mantissa at or below the smallest exponent. *)
Lemma binary_round_aux_valid_zero (s : bool) (e : Z) (l : location) :
  e <= -1074 -> valid (binary_round_aux prec emax s 0 e l) = true.
Proof.
  intros He. unfold binary_round_aux, shr_fexp.
  change (Zdigits2 0 + e) with e. fold (fexp64 e).
  assert (Hf : fexp64 e = -1074) by (rewrite fexp64_eq; lia).
  rewrite Hf.
  destruct (shr_spec (shr_record_of_loc 0 l) e (-1074 - e)) as [Sm Se];
    [rewrite shr_record_of_loc_m; lia | lia |].
  rewrite shr_record_of_loc_m, Z.div_0_l in Sm
    by (apply Z.pow_nonzero; lia).
  destruct (shr (shr_record_of_loc 0 l) e (-1074 - e)) as [mrs' e'].
  cbn [fst snd] in Sm, Se. rewrite Sm.
  replace e' with (-1074) by lia.
  destruct (round_nearest_even_cases 0 (loc_of_shr_record mrs')) as [R|R];
    rewrite R; reflexivity.
Qed.

(** The quotient computed by [SFdiv_core_binary] has enough digits. *)
Lemma quotient_digits (m' m2 q r d2 k : Z) :
  0 < m2 < 2 ^ d2 -> 0 <= d2 -> 0 <= k ->
  m' = m2 * q + r -> 0 <= r < m2 -> 0 < q ->
  2 ^ (d2 + k) <= m' -> k < Zdigits2 q.
Proof.
  intros Hm2 Hd2 Hk E Hr Hq Lo.
  pose proof (Zdigits2_bounds q Hq) as [_ Hi].
  apply (Z.pow_lt_mono_r_iff 2); [lia | pose proof (Zdigits2_pos q Hq); lia |].
  apply Z.le_lt_trans with q; [|assumption].
  destruct (Z.le_gt_cases (2 ^ k) q) as [|Hlt]; [assumption|exfalso].
  assert (A : m2 * (q + 1) <= m2 * 2 ^ k)
    by (apply Z.mul_le_mono_nonneg_l; lia).
  assert (P : 0 < 2 ^ k) by (apply Z.pow_pos_nonneg; lia).
  assert (B : m2 * 2 ^ k < 2 ^ d2 * 2 ^ k)
    by (apply Z.mul_lt_mono_pos_r; lia).
  rewrite Z.pow_add_r in Lo by lia.
  rewrite Z.mul_add_distr_l, Z.mul_1_r in A.
  clear - E Hr A B Lo. lia.
Qed.

(** A quotient is a float64. *)
Lemma fdiv_valid (a b : float) : valid (fdiv a b) = true.
Proof.
  destruct a as [sa|sa| |sa m1 e1], b as [sb|sb| |sb m2 e2];
    try reflexivity.
  unfold fdiv. cbn [SFdiv]. unfold SFdiv_core_binary.
  cbn [Zdigits2].
  set (d1 := Z.pos (digits2_pos m1)). set (d2 := Z.pos (digits2_pos m2)).
  fold (fexp64 (d1 + e1 - (d2 + e2))).
  set (e' := Z.min (fexp64 (d1 + e1 - (d2 + e2))) (e1 - e2)).
  set (s := e1 - e2 - e').
  assert (Hs : 0 <= s) by (subst s e'; lia).
  set (m' := match s with
             | 0 => Z.pos m1
             | Z.pos _ => Z.shiftl (Z.pos m1) s
             | Z.neg _ => 0
             end).
  assert (Hm' : m' = Z.pos m1 * 2 ^ s).
  { subst m'. destruct s as [|p|p] eqn:Es; try lia.
    now rewrite Z.shiftl_mul_pow2 by lia. }
  pose proof (Z_div_mod m' (Z.pos m2) ltac:(lia)) as D.
  destruct (Z.div_eucl m' (Z.pos m2)) as [q r]. destruct D as [E Hr].
  pose proof (digits2_pos_bounds m1) as [Lo1 Hi1].
  pose proof (digits2_pos_bounds m2) as [Lo2 Hi2].
  fold d1 in Lo1, Hi1. fold d2 in Lo2, Hi2.
  assert (P : 0 < 2 ^ s) by (apply Z.pow_pos_nonneg; lia).
  assert (Lo : 2 ^ (d1 - 1 + s) <= m').
  { rewrite Hm', Z.pow_add_r by (subst d1; lia).
    apply Z.mul_le_mono_nonneg_r; lia. }
  assert (Hq : 0 <= q).
  { destruct (Z.le_gt_cases 0 q) as [|Hneg]; [assumption|exfalso].
    assert (Z.pos m2 * q <= Z.pos m2 * (-1))
      by (apply Z.mul_le_mono_nonneg_l; lia).
    assert (0 < m') by (rewrite Hm'; apply Z.mul_pos_pos; lia).
    lia. }
  assert (Fe : e' <= fexp64 (d1 + e1 - (d2 + e2))) by (subst e'; lia).
  destruct (Z.eq_dec q 0) as [Q0|Qn].
  - subst q. apply binary_round_aux_valid_zero.
    assert (Hlt : d1 - 1 + s < d2).
    { apply (Z.pow_lt_mono_r_iff 2); [lia | subst d2; lia | lia]. }
    rewrite fexp64_eq in Fe. subst s. lia.
  - apply binary_round_aux_valid; [lia|].
    assert (Hk : d1 + s - d2 <= Zdigits2 q).
    { destruct (Z.le_gt_cases (d1 + s - d2) 0) as [|Hpos].
      - pose proof (Zdigits2_pos q ltac:(lia)). lia.
      - pose proof (quotient_digits m' (Z.pos m2) q r d2 (d1 + s - d2 - 1)
                      ltac:(lia) ltac:(subst d2; lia) ltac:(lia) E Hr
                      ltac:(lia)) as K.
        replace (d2 + (d1 + s - d2 - 1)) with (d1 - 1 + s) in K by lia.
        specialize (K Lo). lia. }
    rewrite fexp64_eq in *. subst s. lia.
Qed.

End OneAndQuotients.
(** * The driver, step by step *)

Section DriverSteps.

Lemma after_moves_S (k : nat) (p : Particles) (xs ys : Np.ndarray) :
  x p = Some xs -> y p = Some ys ->
  after_moves (S k) p = after_moves k (snd (move p)).
Proof.
  intros Hx Hy. unfold after_moves. cbn [repeat_move]. unfold bind.
  now rewrite (move_arrays p xs ys Hx Hy).
Qed.

(** The loop appends, for every step, the row that [diagnostics] returns
    after that many calls of [move]. *)
Lemma run_steps_rows (steps : list Z) :
  forall (df : DataFrame) (p : Particles) (xs ys : Np.ndarray),
    x p = Some xs -> y p = Some ys ->
    labelled df -> steps_done p + 1 = Z.of_nat (length df) ->
    exists rows : DataFrame,
      run_steps steps df p
      = (Ok (df ++ rows), after_moves (length steps) p) /\
      length rows = length steps /\
      forall k, (k < length steps)%nat ->
        exists r, nth_error rows k = Some r /\
                  fst (diagnostics (after_moves (S k) p)) = Ok [r].
Proof.
  induction steps as [|i steps IH]; intros df p xs ys Hx Hy L Sd.
  - exists []. cbn. rewrite app_nil_r. repeat split. intros k Hk. lia.
  - cbn [run_steps]. unfold bind at 1.
    assert (P1 : forall k, after_moves (S k) p = after_moves k (snd (move p)))
      by (intros k; now apply (after_moves_S k p xs ys)).
    rewrite (move_arrays p xs ys Hx Hy) in *. cbn [snd] in P1.
    set (p1 := {| rng := rng_after p xs ys |}) in *.
    unfold bind at 1.
    assert (D1 : diagnostics p1 = _)
      by exact (diagnostics_arrays p1 _ _ eq_refl eq_refl).
    rewrite D1.
    set (row := {| index := steps_done p1 |}) in *.
    assert (A : df_append df [row] true = df ++ [row]).
    { apply df_append_steps_done; [assumption|].
      subst row p1. cbn [index steps_done]. lia. }
    rewrite A.
    destruct (IH (df ++ [row]) p1 _ _ eq_refl eq_refl)
      as (rows & R & N & K).
    + rewrite <- A. apply df_append_labelled.
    + rewrite length_app. subst p1. cbn [steps_done length]. lia.
    + exists (row :: rows). rewrite R, <- app_assoc. cbn [app length].
      rewrite P1, N. repeat split. intros [|k] Hk.
      * exists row. split; [reflexivity|]. rewrite P1.
        change (after_moves 0 p1) with p1. now rewrite D1.
      * destruct (K k ltac:(lia)) as (r & Hr & Dr).
        exists r. split; [exact Hr|]. now rewrite P1.
Qed.

(** What the experiment returns on arrays of one length, in terms of the
    methods of [Particles]. *)
Lemma experiment_rows (number_steps : Z) (p : Particles)
    (xs ys : Np.ndarray) :
  x p = Some xs -> y p = Some ys -> length xs = length ys ->
  steps_done p = 0 ->
  exists o : Outcome,
    fst (experiment number_steps p) = Ok o /\
    length (diags o) = S (length (py_range 1 number_steps)) /\
    (forall k, (k < length (diags o))%nat ->
       exists r, nth_error (diags o) k = Some r /\
                 fst (diagnostics (after_moves k p)) = Ok [r]) /\
    fst (positions p) = Ok (initial_positions o) /\
    fst (positions (after_moves (length (py_range 1 number_steps)) p))
    = Ok (final_positions o).
Proof.
  intros Hx Hy E S0. unfold experiment.
  unfold bind at 1. rewrite (positions_arrays p xs ys Hx Hy E).
  unfold bind at 1.
  assert (D0 : diagnostics p = _) by exact (diagnostics_arrays p xs ys Hx Hy).
  rewrite D0.
  set (row := {| index := steps_done p |}) in *.
  set (steps := py_range 1 number_steps).
  assert (L0 : labelled [row]) by (unfold labelled; cbn; now rewrite S0).
  assert (N0 : steps_done p + 1 = Z.of_nat (length [row])) by (cbn; lia).
  destruct (run_steps_arrays steps [row] p xs ys Hx Hy L0 N0)
    as (df' & p' & xs' & ys' & R & X & Y & Lx & Ly & _).
  destruct (run_steps_rows steps [row] p xs ys Hx Hy L0 N0)
    as (rows & R' & N & K).
  rewrite R in R'. injection R' as Edf Ep. subst df' p'.
  unfold bind at 1. rewrite R. unfold bind at 1.
  assert (Pf : positions (after_moves (length steps) p) = _)
    by exact (positions_arrays _ xs' ys' X Y ltac:(congruence)).
  rewrite Pf. eexists. split; [reflexivity|].
  cbn [diags initial_positions final_positions fst app length].
  rewrite N. split; [reflexivity|]. split; [|split; reflexivity].
  intros [|k] Hk.
  - exists row. split; [reflexivity|].
    change (after_moves 0 p) with p. now rewrite D0.
  - apply K. lia.
Qed.

(** [run_random_walk] with a particle count that is not negative runs
    the experiment on the centred particles. *)
Lemma run_random_walk_unfolded (entropy : nat -> float)
    (length_x length_y : float) (number_particles number_steps : Z)
    (step_length : float) :
  0 <= number_particles ->
  run_random_walk entropy length_x length_y number_particles number_steps
                  step_length
  = ([TheSpace (PeriodicSpace_init length_x length_y);
      TheRng (Np.RandomState_init entropy);
      TheParticles (centred_particles entropy length_x length_y
                      (Z.to_nat number_particles) step_length)],
     fst (experiment number_steps
            (centred_particles entropy length_x length_y
               (Z.to_nat number_particles) step_length))).
Proof.
  intros Hn. unfold run_random_walk, Np.ones.
  destruct (Z.ltb_spec number_particles 0) as [|_]; [lia|]. reflexivity.
Qed.

Lemma combine_repeat {A B : Type} (a : A) (b : B) (n : nat) :
  combine (repeat a n) (repeat b n) = repeat (a, b) n.
Proof. induction n as [|n IH]; cbn; [reflexivity | now rewrite IH]. Qed.

Lemma py_range_empty (a b : Z) : b <= a -> py_range a b = [].
Proof.
  intros H. unfold py_range.
  replace (Z.to_nat (b - a)) with 0%nat by lia. reflexivity.
Qed.

Lemma Forall_combine {A B : Type} (P : A -> Prop) (Q : B -> Prop)
    (l : list A) :
  forall l' : list B,
    Forall P l -> Forall Q l' ->
    Forall (fun q => P (fst q) /\ Q (snd q)) (combine l l').
Proof.
  induction l as [|a l IH]; intros [|b l'] Hl Hl'; cbn; try constructor.
  - inversion Hl; inversion Hl'; subst. auto.
  - inversion Hl; inversion Hl'; subst. now apply IH.
Qed.

(** X15.  The rows of the driver are the methods' answers: for a
    particle count that is not negative, row [k] of the diagnostics
    frame is the row [diagnostics] returns after [k] calls of [move] on
    the particles constructed, the initial positions are [positions]
    before any call, and the final positions are [positions] after all
    of them. *)
Theorem run_random_walk_rows_follow_moves (entropy : nat -> float)
    (length_x length_y : float) (number_particles number_steps : Z)
    (step_length : float) :
  0 <= number_particles ->
  exists (o : Outcome) (p : Particles),
    run_random_walk entropy length_x length_y number_particles number_steps
                    step_length
    = ([TheSpace (PeriodicSpace_init length_x length_y);
        TheRng (Np.RandomState_init entropy);
        TheParticles p], Ok o) /\
    (forall k, (k < length (diags o))%nat ->
       exists r, nth_error (diags o) k = Some r /\
                 fst (diagnostics (after_moves k p)) = Ok [r]) /\
    fst (positions p) = Ok (initial_positions o) /\
    fst (positions (after_moves (length (diags o) - 1) p))
    = Ok (final_positions o).
Proof.
  intros Hn. rewrite run_random_walk_unfolded by assumption.
  set (p := centred_particles _ _ _ _ _).
  destruct (experiment_rows number_steps p _ _ eq_refl eq_refl)
    as (o & R & N & K & I & F).
  { now rewrite !half_length. }
  { reflexivity. }
  exists o, p. rewrite R, N. cbn [Nat.sub]. rewrite Nat.sub_0_r.
  rewrite N in K. auto.
Qed.

Lemma run_random_walk_rows_follow_moves_witness :
  exists (o : Outcome) (p : Particles),
    run_random_walk sample_entropy (of_Z 10) (of_Z 20) 2 3 (dec 1 2)
    = ([TheSpace (PeriodicSpace_init (of_Z 10) (of_Z 20));
        TheRng (Np.RandomState_init sample_entropy);
        TheParticles p], Ok o) /\
    (forall k, (k < length (diags o))%nat ->
       exists r, nth_error (diags o) k = Some r /\
                 fst (diagnostics (after_moves k p)) = Ok [r]) /\
    fst (positions p) = Ok (initial_positions o) /\
    fst (positions (after_moves (length (diags o) - 1) p))
    = Ok (final_positions o).
Proof.
  apply (run_random_walk_rows_follow_moves sample_entropy (of_Z 10)
           (of_Z 20) 2 3 (dec 1 2)).
  lia.
Defined.

(** X16.  The walk starts at the centre: for a particle count that is
    not negative and float64 extents, the initial positions are
    [number_particles] rows, each [(length_x / 2, length_y / 2)]. *)
Theorem run_random_walk_starts_at_centre (entropy : nat -> float)
    (length_x length_y : float) (number_particles number_steps : Z)
    (step_length : float) :
  0 <= number_particles -> float64 length_x -> float64 length_y ->
  exists o : Outcome,
    snd (run_random_walk entropy length_x length_y number_particles
                         number_steps step_length) = Ok o /\
    initial_positions o
    = repeat (Some (fdiv length_x (of_Z 2)), Some (fdiv length_y (of_Z 2)))
             (Z.to_nat number_particles).
Proof.
  intros Hn Vx Vy. rewrite run_random_walk_unfolded by assumption.
  cbn [snd]. set (p := centred_particles _ _ _ _ _).
  destruct (experiment_rows number_steps p _ _ eq_refl eq_refl)
    as (o & R & _ & _ & I & _).
  { now rewrite !half_length. }
  { reflexivity. }
  exists o. split; [exact R|].
  rewrite (positions_arrays p _ _ eq_refl eq_refl) in I
    by now rewrite !half_length.
  cbn [fst] in I. injection I as <-.
  rewrite !map_repeat, combine_repeat, map_repeat. cbn [fst snd].
  fold one. now rewrite !fmul_one_l.
Qed.

Lemma run_random_walk_starts_at_centre_witness :
  exists o : Outcome,
    snd (run_random_walk sample_entropy (of_Z 10) (of_Z 20) 2 3 (dec 1 2))
    = Ok o /\
    initial_positions o
    = repeat (Some (fdiv (of_Z 10) (of_Z 2)), Some (fdiv (of_Z 20) (of_Z 2)))
             (Z.to_nat 2).
Proof.
  apply (run_random_walk_starts_at_centre sample_entropy (of_Z 10)
           (of_Z 20) 2 3 (dec 1 2)); [lia | reflexivity | reflexivity].
Defined.

(** X17.  With [number_steps] at most one (zero and negative values
    included) no step is taken: the diagnostics frame is the single row
    of step 0 and the final positions are the initial ones. *)
Theorem run_random_walk_without_steps (entropy : nat -> float)
    (length_x length_y : float) (number_particles number_steps : Z)
    (step_length : float) :
  0 <= number_particles -> number_steps <= 1 ->
  exists (o : Outcome) (r : DiagRow),
    snd (run_random_walk entropy length_x length_y number_particles
                         number_steps step_length) = Ok o /\
    diags o = [r] /\ index r = 0 /\
    final_positions o = initial_positions o.
Proof.
  intros Hn Hs. rewrite run_random_walk_unfolded by assumption.
  cbn [snd]. set (p := centred_particles _ _ _ _ _).
  assert (E : length (map (fun o => fdiv (fmul o length_x) (of_Z 2))
                          (repeat (of_Z 1) (Z.to_nat number_particles)))
              = length (map (fun o => fdiv (fmul o length_y) (of_Z 2))
                          (repeat (of_Z 1) (Z.to_nat number_particles))))
    by now rewrite !half_length.
  unfold experiment.
  unfold bind at 1. rewrite (positions_arrays p _ _ eq_refl eq_refl E).
  unfold bind at 1. rewrite (diagnostics_arrays p _ _ eq_refl eq_refl).
  rewrite py_range_empty by assumption. cbn [run_steps].
  unfold bind at 1. cbn [ret]. unfold bind at 1.
  rewrite (positions_arrays p _ _ eq_refl eq_refl E).
  cbn [ret fst]. eexists _, _. split; [reflexivity|].
  cbn [diags final_positions initial_positions]. repeat split.
Qed.

Lemma run_random_walk_without_steps_witness :
  exists (o : Outcome) (r : DiagRow),
    snd (run_random_walk sample_entropy (of_Z 10) (of_Z 20) 2 (-3)
                         (dec 1 2)) = Ok o /\
    diags o = [r] /\ index r = 0 /\
    final_positions o = initial_positions o.
Proof.
  apply (run_random_walk_without_steps sample_entropy (of_Z 10) (of_Z 20)
           2 (-3) (dec 1 2)); lia.
Defined.

(** X18.  The driver keeps the particles in the box: for two or more
    steps, float64 parameters and draws, and positive finite extents,
    every final position has both coordinates in [[0, length_x]]
    (respectively [[0, length_y]]) or NaN. *)
Theorem run_random_walk_final_positions_in_box (entropy : nat -> float)
    (length_x length_y : float) (number_particles number_steps : Z)
    (step_length : float) :
  0 <= number_particles -> 2 <= number_steps ->
  float64 length_x -> is_pos_finite length_x = true ->
  float64 length_y -> is_pos_finite length_y = true ->
  float64 step_length -> (forall i, float64 (entropy i)) ->
  exists o : Outcome,
    snd (run_random_walk entropy length_x length_y number_particles
                         number_steps step_length) = Ok o /\
    length (final_positions o) = Z.to_nat number_particles /\
    Forall (row_boxed length_x length_y) (final_positions o).
Proof.
  intros Hn Hs Vx Px Vy Py Vs Ve.
  rewrite run_random_walk_unfolded by assumption.
  cbn [snd]. set (p := centred_particles _ _ _ _ _).
  destruct (experiment_rows number_steps p _ _ eq_refl eq_refl)
    as (o & R & _ & _ & _ & F).
  { now rewrite !half_length. }
  { reflexivity. }
  exists o. split; [exact R|].
  assert (Hk : exists k, length (py_range 1 number_steps) = S k).
  { exists (Z.to_nat (number_steps - 2)). unfold py_range.
    rewrite length_map, length_seq. lia. }
  destruct Hk as [k Hk]. rewrite Hk in F.
  destruct (moves_boxed k p _ _ eq_refl eq_refl)
    as (p' & xs' & ys' & M & X & Y & Lx & Ly & Bx & By);
    try assumption;
    try (apply Forall_map, Forall_forall; intros v _; apply fdiv_valid).
  rewrite half_length, repeat_length in Lx, Ly.
  unfold after_moves in F. rewrite M in F. cbn [snd] in F.
  rewrite (positions_arrays p' xs' ys' X Y ltac:(congruence)) in F.
  cbn [fst] in F. injection F as <-.
  split.
  - rewrite length_map, length_combine. lia.
  - apply Forall_map.
    eapply Forall_impl; [|exact (Forall_combine _ _ xs' ys' Bx By)].
    intros [a b] [Ha Hb]. exists a, b. auto.
Qed.

Lemma sample_entropy_float64 (i : nat) : float64 (sample_entropy i).
Proof.
  unfold sample_entropy, float64.
  assert (H : (i mod 7 < 7)%nat) by (apply Nat.mod_upper_bound; lia).
  destruct (i mod 7)%nat as [|[|[|[|[|[|[|n]]]]]]]; try reflexivity; lia.
Qed.

Lemma run_random_walk_final_positions_in_box_witness :
  exists o : Outcome,
    snd (run_random_walk sample_entropy (of_Z 10) (of_Z 20) 2 3
                         (dyadic 1 1023)) = Ok o /\
    length (final_positions o) = Z.to_nat 2 /\
    Forall (row_boxed (of_Z 10) (of_Z 20)) (final_positions o).
Proof.
  apply (run_random_walk_final_positions_in_box sample_entropy (of_Z 10)
           (of_Z 20) 2 3 (dyadic 1 1023));
    try lia; try reflexivity.
  apply sample_entropy_float64.
Defined.

End DriverSteps.
(** * How many draws a run reads *)

Section DrawsRead.

Lemma normal_below (n : nat) (r1 r2 : Np.RandomState) (size : nat) :
  same_draws_below n r1 r2 -> (Np.drawn r1 + size <= n)%nat ->
  fst (Np.normal r1 size) = fst (Np.normal r2 size) /\
  same_draws_below n (snd (Np.normal r1 size)) (snd (Np.normal r2 size)).
Proof.
  intros [D G] Hn. cbn. rewrite <- D. split.
  - apply map_ext_in. intros i Hi. apply in_seq in Hi. apply G. lia.
  - split; [reflexivity | exact G].
Qed.

Lemma move_alike (n : nat) (p1 p2 : Particles) (xs ys : Np.ndarray) :
  alike_below n p1 p2 -> x p1 = Some xs -> y p1 = Some ys ->
  (Np.drawn (rng p1) + (length xs + length ys) <= n)%nat ->
  alike_below n (snd (move p1)) (snd (move p2)).
Proof.
  intros (R & Sp & X & Y & Sl & Sd) Hx Hy Hn.
  rewrite (move_arrays p1 xs ys Hx Hy).
  rewrite (move_arrays p2 xs ys) by congruence.
  cbn [snd].
  destruct (normal_below n _ _ (length xs) R ltac:(lia)) as [Dx Rx].
  destruct (normal_below n _ _ (length ys) Rx) as [Dy Ry].
  { cbn [Np.normal snd Np.drawn]. lia. }
  unfold alike_below, rng_after, prewrap_x, prewrap_y.
  cbn [rng space x y step_length steps_done].
  rewrite Sp, Sl, Sd, Dx, Dy. auto 10.
Qed.

(** The loop reads [len(x) + len(y)] draws for every step and nothing
    beyond them. *)
Lemma run_steps_alike (n : nat) (steps : list Z) :
  forall (df : DataFrame) (p1 p2 : Particles) (xs ys : Np.ndarray),
    alike_below n p1 p2 -> x p1 = Some xs -> y p1 = Some ys ->
    (Np.drawn (rng p1) + length steps * (length xs + length ys) <= n)%nat ->
    fst (run_steps steps df p1) = fst (run_steps steps df p2) /\
    x (snd (run_steps steps df p1)) = x (snd (run_steps steps df p2)) /\
    y (snd (run_steps steps df p1)) = y (snd (run_steps steps df p2)).
Proof.
  induction steps as [|i steps IH]; intros df p1 p2 xs ys A Hx Hy Hn.
  - destruct A as (_ & _ & X & Y & _). cbn. auto.
  - pose proof (move_alike n p1 p2 xs ys A Hx Hy) as A1.
    pose proof A as (_ & _ & X & Y & _ & Sd).
    cbn [run_steps]. unfold bind at 1 3 5 7 9 11.
    rewrite (move_arrays p1 xs ys Hx Hy) in *.
    rewrite (move_arrays p2 xs ys) in * by congruence.
    cbn [snd] in A1.
    set (q1 := {| rng := rng_after p1 xs ys |}) in *.
    set (q2 := {| rng := rng_after p2 xs ys |}) in *.
    cbn [length Nat.mul] in Hn.
    specialize (A1 ltac:(lia)).
    pose proof A1 as (_ & _ & X1 & Y1 & _ & Sd1).
    unfold bind at 1 2 3 4 5 6.
    rewrite (diagnostics_arrays q1 _ _ eq_refl eq_refl).
    rewrite (diagnostics_arrays q2 _ _ (eq_sym X1) (eq_sym Y1)).
    rewrite <- Sd1.
    apply (IH _ q1 q2 _ _ A1 eq_refl eq_refl).
    rewrite !length_map, prewrap_x_length, prewrap_y_length.
    subst q1. cbn [rng rng_after Np.normal snd Np.drawn]. lia.
Qed.

Lemma positions_alike (p1 p2 : Particles) :
  x p1 = x p2 -> y p1 = y p2 -> fst (positions p1) = fst (positions p2).
Proof.
  intros X Y. unfold positions, bind, get. rewrite X, Y.
  destruct (x p2) as [xs|], (y p2) as [ys|]; cbn; auto.
  destruct (length xs =? length ys)%nat; reflexivity.
Qed.

Lemma experiment_alike (n : nat) (number_steps : Z) (p1 p2 : Particles)
    (xs ys : Np.ndarray) :
  alike_below n p1 p2 -> x p1 = Some xs -> y p1 = Some ys ->
  length xs = length ys ->
  (Np.drawn (rng p1)
   + length (py_range 1 number_steps) * (length xs + length ys) <= n)%nat ->
  fst (experiment number_steps p1) = fst (experiment number_steps p2).
Proof.
  intros A Hx Hy E Hn. pose proof A as (_ & _ & X & Y & _ & Sd).
  unfold experiment.
  unfold bind at 1 5. rewrite (positions_arrays p1 xs ys Hx Hy E).
  rewrite (positions_arrays p2 xs ys) by congruence.
  unfold bind at 1 4. rewrite (diagnostics_arrays p1 xs ys Hx Hy).
  rewrite (diagnostics_arrays p2 xs ys) by congruence.
  rewrite <- Sd.
  set (row := {| index := steps_done p1 |}).
  destruct (run_steps_alike n (py_range 1 number_steps) [row] p1 p2 xs ys
              A Hx Hy Hn) as (F & X' & Y').
  unfold bind at 1 3.
  destruct (run_steps (py_range 1 number_steps) [row] p1) as [[d1|e1] q1],
    (run_steps (py_range 1 number_steps) [row] p2) as [[d2|e2] q2];
    cbn [fst snd] in F, X', Y'; try discriminate.
  - injection F as ->. unfold bind.
    pose proof (positions_alike q1 q2 X' Y') as P.
    destruct (positions q1) as [[f1|x1] t1], (positions q2) as [[f2|x2] t2];
      cbn [fst] in P; try discriminate; cbn; congruence.
  - cbn. congruence.
Qed.

(** The position of the generator after [k] calls of [move]. *)
Lemma after_moves_drawn (k : nat) :
  forall (p : Particles) (xs ys : Np.ndarray),
    x p = Some xs -> y p = Some ys ->
    Np.drawn (rng (after_moves k p))
    = (Np.drawn (rng p) + k * (length xs + length ys))%nat.
Proof.
  induction k as [|k IH]; intros p xs ys Hx Hy.
  - cbn. lia.
  - rewrite (after_moves_S k p xs ys Hx Hy), (move_arrays p xs ys Hx Hy).
    cbn [snd]. set (p1 := {| rng := rng_after p xs ys |}).
    rewrite (IH p1 _ _ eq_refl eq_refl).
    rewrite !length_map, prewrap_x_length, prewrap_y_length.
    subst p1. unfold rng_after. cbn [rng Np.normal snd Np.drawn]. lia.
Qed.

(** The state the experiment leaves is the state after its calls of
    [move]. *)
Lemma experiment_state (number_steps : Z) (p : Particles)
    (xs ys : Np.ndarray) :
  x p = Some xs -> y p = Some ys -> length xs = length ys ->
  steps_done p = 0 ->
  snd (experiment number_steps p)
  = after_moves (length (py_range 1 number_steps)) p.
Proof.
  intros Hx Hy E S0. unfold experiment.
  unfold bind at 1. rewrite (positions_arrays p xs ys Hx Hy E).
  unfold bind at 1. rewrite (diagnostics_arrays p xs ys Hx Hy).
  set (row := {| index := steps_done p |}) in *.
  set (steps := py_range 1 number_steps).
  assert (L0 : labelled [row]) by (unfold labelled; cbn; now rewrite S0).
  assert (N0 : steps_done p + 1 = Z.of_nat (length [row])) by (cbn; lia).
  destruct (run_steps_arrays steps [row] p xs ys Hx Hy L0 N0)
    as (df' & p' & xs' & ys' & R & X & Y & Lx & Ly & _).
  destruct (run_steps_rows steps [row] p xs ys Hx Hy L0 N0)
    as (rows & R' & _).
  rewrite R in R'. injection R' as Edf Ep. subst df' p'.
  unfold bind at 1. rewrite R. unfold bind at 1.
  now rewrite (positions_arrays _ xs' ys' X Y ltac:(congruence)).
Qed.

(** X19.  How many values a run reads.  Two runs whose sources of
    entropy agree on the first [draws_read number_particles
    number_steps] values return the same result (the same diagnostics
    and positions, or the same error), whatever the sources hold
    afterwards; and a run with a particle count that is not negative
    takes exactly that many values: its generator, at position [0] when
    the particles are constructed, is at position
    [2 * number_particles * (number_steps - 1)] when the experiment
    ends ([0] for [number_steps <= 1]). *)
Theorem run_random_walk_reads_finitely_many_draws (e1 e2 : nat -> float)
    (length_x length_y : float) (number_particles number_steps : Z)
    (step_length : float) :
  ((forall i, (i < draws_read number_particles number_steps)%nat ->
              e1 i = e2 i) ->
   snd (run_random_walk e1 length_x length_y number_particles number_steps
                        step_length)
   = snd (run_random_walk e2 length_x length_y number_particles
                          number_steps step_length)) /\
  (0 <= number_particles ->
   exists p : Particles,
     run_random_walk e1 length_x length_y number_particles number_steps
                     step_length
     = ([TheSpace (PeriodicSpace_init length_x length_y);
         TheRng (Np.RandomState_init e1);
         TheParticles p], fst (experiment number_steps p)) /\
     Np.drawn (rng p) = 0%nat /\
     Np.drawn (rng (snd (experiment number_steps p)))
     = draws_read number_particles number_steps).
Proof.
  split.
  - intros He.
    destruct (Z.lt_ge_cases number_particles 0) as [Hneg|Hn].
    + unfold run_random_walk, Np.ones.
      destruct (Z.ltb_spec number_particles 0) as [_|]; [reflexivity | lia].
    + rewrite !run_random_walk_unfolded by lia. cbn [snd].
      eapply (experiment_alike
                (draws_read number_particles number_steps));
        [| reflexivity | reflexivity | now rewrite !half_length |].
      * split; [split; [reflexivity | exact He] | auto 10].
      * rewrite !half_length, repeat_length. cbn [centred_particles rng
          Np.RandomState_init Np.drawn Nat.add].
        unfold py_range, draws_read. rewrite length_map, length_seq. lia.
  - intros Hn. rewrite run_random_walk_unfolded by assumption.
    set (p := centred_particles _ _ _ _ _).
    exists p. split; [reflexivity|]. split; [reflexivity|].
    rewrite (experiment_state number_steps p _ _ eq_refl eq_refl)
      by (reflexivity || now rewrite !half_length).
    rewrite (after_moves_drawn _ p _ _ eq_refl eq_refl).
    rewrite !half_length, repeat_length. subst p.
    cbn [centred_particles rng Np.RandomState_init Np.drawn Nat.add].
    unfold py_range, draws_read. rewrite length_map, length_seq. lia.
Qed.

Lemma run_random_walk_reads_finitely_many_draws_witness :
  snd (run_random_walk sample_entropy (of_Z 10) (of_Z 20) 1 3 (dec 1 2))
  = snd (run_random_walk spliced_entropy (of_Z 10) (of_Z 20) 1 3 (dec 1 2))
  /\
  exists p : Particles,
    run_random_walk sample_entropy (of_Z 10) (of_Z 20) 1 3 (dec 1 2)
    = ([TheSpace (PeriodicSpace_init (of_Z 10) (of_Z 20));
        TheRng (Np.RandomState_init sample_entropy);
        TheParticles p], fst (experiment 3 p)) /\
    Np.drawn (rng p) = 0%nat /\
    Np.drawn (rng (snd (experiment 3 p))) = 4%nat.
Proof.
  destruct (run_random_walk_reads_finitely_many_draws sample_entropy
              spliced_entropy (of_Z 10) (of_Z 20) 1 3 (dec 1 2))
    as [Same Count].
  split.
  - apply Same. intros i Hi. change (draws_read 1 3) with 4%nat in Hi.
    unfold spliced_entropy.
    destruct (Nat.ltb_spec i 4) as [_|]; [reflexivity | lia].
  - apply Count. lia.
Defined.

End DrawsRead.

(** * Rounding depends on the value only *)

Section RoundingByValue.








End RoundingByValue.

(** * The wrapped coordinate is the rounded remainder *)

Section RoundedRemainder.



End RoundedRemainder.

(** * [move] on array objects *)

Section InPlaceMove.














(** [Particles(x=a, y=a).move()] for [a = [1.0]]: the constructor
    stores the one array twice, and both additions act on it: it goes
    from [1.0] to [1.0] to [-2^-52]; it is wrapped to [10.0] along [x]
    and to [20.0] along [y], the extents themselves, and the array [a]
    is left at [-2^-52].  The coordinate [-0.25] is wrapped to
    [9.75], the float64 nearest to (here: equal to) the remainder;
    the float64 nearest to the remainder of [-2^-52] is [10.0]. *)
Example move_on_shared_array :
  InPlace.Particles_init
    (InPlace.rng (InPlace.self shared_array_state)) PeriodicSpace_default
    (Some 0%nat) (Some 0%nat) (of_Z 1)
  = Ok (InPlace.self shared_array_state) /\
  added_x shared_array_state 0%nat 0%nat = [dyadic (-1) (-52)] /\
  added_y shared_array_state 0%nat 0%nat = [dyadic (-1) (-52)] /\
  option_map (InPlace.cell (InPlace.store
                              (snd (InPlace.move shared_array_state))))
             (InPlace.x (InPlace.self
                           (snd (InPlace.move shared_array_state))))
  = Some [of_Z 10] /\
  option_map (InPlace.cell (InPlace.store
                              (snd (InPlace.move shared_array_state))))
             (InPlace.y (InPlace.self
                           (snd (InPlace.move shared_array_state))))
  = Some [of_Z 20] /\
  InPlace.cell (InPlace.store (snd (InPlace.move shared_array_state)))
               0%nat
  = [dyadic (-1) (-52)] /\
  np_mod (dyadic (-1) (-2)) (of_Z 10) = dyadic 39 (-2) /\
  nearest (ulps (dyadic (-1) (-2)) mod ulps (of_Z 10)) = dyadic 39 (-2) /\
  nearest (ulps (dyadic (-1) (-52)) mod ulps (of_Z 10)) = of_Z 10.
Proof. repeat split; vm_compute; reflexivity. Qed.

End InPlaceMove.

(** * Arithmetic without rounding *)

Section ExactArithmetic.





















End ExactArithmetic.

(** * Sums without rounding *)

Section ExactSums.

Variable q : Z.
Hypothesis Hq : -1074 <= q <= 971.





















End ExactSums.

(** * The moment of inertia and the population variance *)

Section ExactVariance.














End ExactVariance.
